(** * edc: the configuration loader ([conf]) and the path deriver ([cmd/conftext])

    A shallow embedding of the two recursive cores of the repository:

    - [conf]: [readFromConfigEnv] / [parseEnvConfig] build a nested mapping
      from the process environment, [patchMap] merges it into the mapping
      read from the YAML file;
    - [cmd/conftext]: [processField] / [processStructFields] walk a struct
      declaration and emit one [EnvVar] per leaf field.

    Go strings are byte strings ([string]); Go's [int] is modelled as [Z]
    with the 64-bit range written out where the code depends on it
    ([Atoi]).  A Go [map[string]any] is an association list whose order is
    the order in which [range] visits the keys: Go leaves that order
    unspecified, so statements quantified over all mappings hold for every
    iteration order. *)

From Stdlib Require Import String Ascii List ZArith Lia Bool Arith.
From Equations Require Import Equations.
Import ListNotations.

Open Scope string_scope.
Open Scope Z_scope.

Set Implicit Arguments.
Set Warnings "-register-all".

(* ===================================================================== *)
(** ** The subset of Go's [strings] and [strconv] packages the code uses  *)
(* ===================================================================== *)

Module GoStrings.

(** [len(s)] *)
Definition len (s : string) : Z := Z.of_nat (String.length s).

(** [strings.HasPrefix(s, prefix)] *)
Definition HasPrefix (s prefix : string) : bool := String.prefix prefix s.

(** [strings.Index(s, substr)]: position of the first occurrence, or -1. *)
Definition Index (s substr : string) : Z :=
  match String.index 0 substr s with
  | Some n => Z.of_nat n
  | None => -1
  end.

(** [s[:n]] and [s[n:]] for an index already known to be in range. *)
Fixpoint take (n : nat) (s : string) : string :=
  match n, s with
  | S n', String c s' => String c (take n' s')
  | _, _ => ""
  end.

Fixpoint drop (n : nat) (s : string) : string :=
  match n, s with
  | S n', String _ s' => drop n' s'
  | _, _ => s
  end.

(** [s[lo:]] with Go's bounds check: [None] is the run-time panic
    "slice bounds out of range". *)
Definition slice_from (s : string) (lo : Z) : option string :=
  if (0 <=? lo) && (lo <=? len s) then Some (drop (Z.to_nat lo) s) else None.

(** [strings.Split(s, sep)] for a one-byte separator (every call in the
    repository passes one). *)
Fixpoint Split (s : string) (sep : ascii) : list string :=
  match s with
  | "" => [""]
  | String c s' =>
      if Ascii.eqb c sep then "" :: Split s' sep
      else match Split s' sep with
           | h :: t => String c h :: t
           | [] => [String c ""]
           end
  end.

(** [strings.Join(parts, sep)] *)
Definition Join (parts : list string) (sep : string) : string :=
  String.concat sep parts.

(** [strings.Replace(s, old, "", 1)]: the first occurrence of [old] is
    removed (an empty [old] matches at 0 and removing it changes nothing). *)
Definition Replace1 (s old : string) : string :=
  match String.index 0 old s with
  | Some n => take n s ++ drop (n + String.length old) s
  | None => s
  end.

(** [strings.TrimPrefix(s, prefix)] *)
Definition TrimPrefix (s prefix : string) : string :=
  if HasPrefix s prefix then drop (String.length prefix) s else s.

Fixpoint mem (c : ascii) (cutset : string) : bool :=
  match cutset with
  | "" => false
  | String d rest => Ascii.eqb c d || mem c rest
  end.

Fixpoint TrimLeft (s cutset : string) : string :=
  match s with
  | "" => ""
  | String c s' => if mem c cutset then TrimLeft s' cutset else s
  end.

Fixpoint TrimRight (s cutset : string) : string :=
  match s with
  | "" => ""
  | String c s' =>
      match TrimRight s' cutset with
      | "" => if mem c cutset then "" else String c ""
      | r => String c r
      end
  end.

(** [strings.Trim(s, cutset)] *)
Definition Trim (s cutset : string) : string :=
  TrimRight (TrimLeft s cutset) cutset.

(** ASCII white space: space, \t, \n, \v, \f, \r. *)
Definition space_cutset : string :=
  String " " (String "009" (String "010" (String "011"
    (String "012" (String "013" "")))))%char.

(** [strings.TrimSpace(s)] on ASCII text. *)
Definition TrimSpace (s : string) : string := Trim s space_cutset.

Definition lower_byte (c : ascii) : ascii :=
  let n := nat_of_ascii c in
  if (65 <=? n)%nat && (n <=? 90)%nat then ascii_of_nat (n + 32) else c.

Definition upper_byte (c : ascii) : ascii :=
  let n := nat_of_ascii c in
  if (97 <=? n)%nat && (n <=? 122)%nat then ascii_of_nat (n - 32) else c.

Fixpoint map_bytes (f : ascii -> ascii) (s : string) : string :=
  match s with
  | "" => ""
  | String c s' => String (f c) (map_bytes f s')
  end.

(** [strings.ToLower] / [strings.ToUpper] on ASCII text (bytes above 127
    are left as they are). *)
Definition ToLower : string -> string := map_bytes lower_byte.
Definition ToUpper : string -> string := map_bytes upper_byte.

End GoStrings.

Module GoStrconv.

Definition digit_of (c : ascii) : option Z :=
  let n := nat_of_ascii c in
  if (48 <=? n)%nat && (n <=? 57)%nat then Some (Z.of_nat (n - 48)) else None.

(** Value of a run of decimal digits, most significant first. *)
Fixpoint digits (acc : Z) (s : string) : option Z :=
  match s with
  | "" => Some acc
  | String c s' =>
      match digit_of c with
      | Some d => digits (10 * acc + d) s'
      | None => None
      end
  end.

Definition unsigned_dec (s : string) : option Z :=
  match s with
  | "" => None
  | _ => digits 0 s
  end.

Definition minInt : Z := - 2 ^ 63.
Definition maxInt : Z := 2 ^ 63 - 1.

(** [strconv.Atoi(s)]: an optional sign, then one or more decimal digits,
    nothing else; [None] is any error (syntax or out of the 64-bit
    range). *)
Definition Atoi (s : string) : option Z :=
  let signed :=
    match s with
    | String "-" rest => option_map Z.opp (unsigned_dec rest)
    | String "+" rest => unsigned_dec rest
    | _ => unsigned_dec s
    end in
  match signed with
  | Some n => if (minInt <=? n) && (n <=? maxInt) then Some n else None
  | None => None
  end.

Definition one_of (s : string) (l : list string) : bool :=
  existsb (String.eqb s) l.

(** [strconv.ParseBool(s)] *)
Definition ParseBool (s : string) : option bool :=
  if one_of s ["1"; "t"; "T"; "TRUE"; "true"; "True"] then Some true
  else if one_of s ["0"; "f"; "F"; "FALSE"; "false"; "False"] then Some false
  else None.

End GoStrconv.

Import GoStrings GoStrconv.

(* ===================================================================== *)
(** ** Package [conf]: the data model                                      *)
(* ===================================================================== *)

(** A Go value of type [any] as it occurs in a configuration mapping: what
    [yaml.Unmarshal] stores into a [map[string]any] and what
    [parseEnvConfig] stores ([int], [bool], [string], nested mapping). *)
Inductive any : Type :=
| VInt (n : Z)
| VBool (b : bool)
| VStr (s : string)
| VNull
| VSeq (items : list any)
| VMap (m : cfgmap)
with cfgmap : Type :=
| MNil
| MCons (k : string) (v : any) (rest : cfgmap).

Scheme any_cfgmap_ind := Induction for any Sort Prop
  with cfgmap_any_ind := Induction for cfgmap Sort Prop.

(** Builds a mapping from its entries, for writing literals. *)
Fixpoint of_list (l : list (string * any)) : cfgmap :=
  match l with
  | [] => MNil
  | (k, v) :: l' => MCons k v (of_list l')
  end.

Fixpoint keys (m : cfgmap) : list string :=
  match m with
  | MNil => []
  | MCons k _ rest => k :: keys rest
  end.

(** [m[k]] with the comma-ok flag: [None] when the key is absent. *)
Fixpoint get (k : string) (m : cfgmap) : option any :=
  match m with
  | MNil => None
  | MCons k' v rest => if String.eqb k k' then Some v else get k rest
  end.

(** [m[k] = v] *)
Fixpoint set (k : string) (v : any) (m : cfgmap) : cfgmap :=
  match m with
  | MNil => MCons k v MNil
  | MCons k' v' rest =>
      if String.eqb k k' then MCons k' v rest else MCons k' v' (set k v rest)
  end.

(** The type assertion [v.(map[string]any)] with the comma-ok flag. *)
Definition as_map (v : any) : option cfgmap :=
  match v with
  | VMap m => Some m
  | _ => None
  end.

Definition is_map (v : any) : bool :=
  match v with
  | VMap _ => true
  | _ => false
  end.

(** Follows a chain of keys through nested mappings. *)
Fixpoint get_path (path : list string) (m : cfgmap) : option any :=
  match path with
  | [] => None
  | [k] => get k m
  | k :: rest =>
      match get k m with
      | Some (VMap sub) => get_path rest sub
      | _ => None
      end
  end.

(** Go maps hold each key once; the mappings nested below do too. *)
Fixpoint wf_any (v : any) : Prop :=
  match v with
  | VMap m => wf_map m
  | _ => True
  end
with wf_map (m : cfgmap) : Prop :=
  match m with
  | MNil => True
  | MCons k v rest => ~ In k (keys rest) /\ wf_any v /\ wf_map rest
  end.

(** Run-time panics the modelled code can raise. *)
Inductive panic : Type :=
| TypeAssertionFailed (found : option any)
    (* interface conversion: interface {} is ..., not map[string]interface {} *)
| SliceOutOfRange (s : string) (lo : Z)
| NilDereference
| IndexOutOfRange.

(** A call either returns or panics. *)
Inductive outcome (A : Type) : Type :=
| Returns (a : A)
| Panics (p : panic).
Arguments Panics {A} p.

Definition bind {A B} (c : outcome A) (k : A -> outcome B) : outcome B :=
  match c with
  | Returns a => k a
  | Panics p => Panics p
  end.

Notation "x <- c ;; k" := (bind c (fun x => k))
  (at level 61, c at next level, right associativity).

(** Error values ([error] interface): the merge's own error, an error of
    the file reader, and [errors.Wrap]. *)
Inductive error : Type :=
| NotAMap (k : string) (p : cfgmap)
    (* "%s of %s is not a map[string]any", k, p *)
| FileError (msg : string)
| Wrap (e : error) (msg : string).

(* ===================================================================== *)
(** ** Package [conf]: the environment scan                                *)
(* ===================================================================== *)

(** The leaf stored by [parseEnvConfig]: [strconv.Atoi] first, then
    [strconv.ParseBool], then the raw string. *)
Definition coerceValue (value : string) : any :=
  match Atoi value with
  | Some intVal => VInt intVal
  | None =>
      match ParseBool value with
      | Some boolVal => VBool boolVal
      | None => VStr value
      end
  end.

(** Keeps the equation of a test in scope of the branch taken. *)
Definition inspect {A} (a : A) : {b : A | a = b} := exist _ a eq_refl.

(** [parseEnvConfig(curCfg, key, value)]: the mapping is mutated in place,
    so the call returns it as it leaves it.  The nested mapping reached
    through [curCfg[thisKey]] is the same object as the entry, and what
    the recursive call does to it is written back at [thisKey].  The
    recursion is on [key[i+1:]], which is shorter than [key]. *)
Equations? parseEnvConfig (curCfg : cfgmap) (key value : string)
  : outcome cfgmap by wf (String.length key) lt :=
  parseEnvConfig curCfg key value with inspect (Index key "_" =? -1) := {
    | exist _ true _ => Returns (set key (coerceValue value) curCfg)
    | exist _ false Hi =>
        let i := Index key "_" in
        let thisKey := take (Z.to_nat i) key in
        let curCfg1 :=
          match get thisKey curCfg with
          | Some _ => curCfg
          | None => set thisKey (VMap MNil) curCfg
          end in
        match get thisKey curCfg1 with
        | Some (VMap sub) =>
            sub' <- parseEnvConfig sub (drop (Z.to_nat (i + 1)) key) value ;;
            Returns (set thisKey (VMap sub') curCfg1)
        | found => Panics (TypeAssertionFailed found)
        end }.
Proof.
  assert (Hshort : forall n s, s <> "" ->
            (String.length (drop (S n) s) < String.length s)%nat).
  { intros n. induction n as [|n IH]; intros [|c s] Hs; try congruence.
    - simpl. lia.
    - destruct s as [|d s]; [simpl; lia|].
      specialize (IH (String d s) ltac:(discriminate)).
      change (drop (S (S n)) (String c (String d s)))
        with (drop (S n) (String d s)).
      simpl String.length in *. lia. }
  assert (Hne : key <> "") by (intros ->; discriminate Hi).
  assert (0 <= Index key "_").
  { unfold Index in *. destruct (String.index 0 "_" key); [lia|discriminate]. }
  subst i.
  replace (Z.to_nat (Index key "_" + 1))
    with (S (Z.to_nat (Index key "_"))) by lia.
  apply Hshort. exact Hne.
Qed.

(** Lines 101-103 of [readFromConfigEnv]: the variable's name is the text
    before the first [=]; the key handed to [parseEnvConfig] is that name
    with the first occurrence of the prefix removed, lower-cased. *)
Definition envName (v : string) : string := hd "" (Split v "=").

Definition envKey (prefix name : string) : string :=
  ToLower (Replace1 name prefix).

(** One iteration of the loop of [readFromConfigEnv] on the entry [v]
    ("NAME=VALUE") of [os.Environ()]. *)
Definition scanEntry (prefix v : string) (envCfg : cfgmap) : outcome cfgmap :=
  if HasPrefix v prefix then
    let key := envName v in
    match slice_from v (len key + 1) with
    | None => Panics (SliceOutOfRange v (len key + 1))
    | Some value => parseEnvConfig envCfg (envKey prefix key) value
    end
  else Returns envCfg.

Fixpoint scan (prefix : string) (environ : list string) (envCfg : cfgmap)
  : outcome cfgmap :=
  match environ with
  | [] => Returns envCfg
  | v :: rest => envCfg' <- scanEntry prefix v envCfg ;; scan prefix rest envCfg'
  end.

(* ===================================================================== *)
(** ** Package [conf]: the merge                                           *)
(* ===================================================================== *)

(** [patchMap(o, p)]: [todo] is the part of [p] the [range] loop has still
    to visit, [o] the base mapping as mutated so far.  The result is the
    base mapping as the call leaves it together with the returned error
    ([None] is [nil]).  A nested mapping of [o] is mutated in place by the
    recursive call, which the model writes back at its key.  The loop
    reads [p[k]] for the key [k] it visits: that is the value [pk] of the
    entry, since a Go map holds a key once. *)
Fixpoint patchMap_loop (p : cfgmap) (o : cfgmap) (todo : cfgmap) {struct todo}
  : cfgmap * option error :=
  match todo with
  | MNil => (o, None)
  | MCons k pk rest =>
      match get k o with
      | Some (VMap ok) =>
          match pk with
          | VMap pm =>
              match patchMap_loop pm ok pm with
              | (ok', Some err) => (set k (VMap ok') o, Some err)
              | (ok', None) => patchMap_loop p (set k (VMap ok') o) rest
              end
          | _ => (o, Some (NotAMap k p))
          end
      | Some _ => patchMap_loop p (set k pk o) rest
      | None => patchMap_loop p (set k pk o) rest
      end
  end.

Definition patchMap (o p : cfgmap) : cfgmap * option error :=
  patchMap_loop p o p.

(** [patchConfigMap(patch, base)] *)
Definition patchConfigMap (patch base : cfgmap) : cfgmap * option error :=
  match patchMap base patch with
  | (base', Some err) => (base', Some (Wrap err "failed to patch to config file"))
  | (base', None) => (base', None)
  end.

(** [conflict o p k' p']: merging [p] into [o] meets, at this level or in
    nested mappings present on both sides, the overlay mapping [p'] holding
    a non-mapping at key [k'] where the base holds a mapping. *)
Inductive conflict : cfgmap -> cfgmap -> string -> cfgmap -> Prop :=
| conflict_here (o p : cfgmap) (k : string) (ok : cfgmap) (pk : any) :
    get k o = Some (VMap ok) -> get k p = Some pk -> is_map pk = false ->
    conflict o p k p
| conflict_below (o p : cfgmap) (k : string) (ok pm : cfgmap)
    (k' : string) (p' : cfgmap) :
    get k o = Some (VMap ok) -> get k p = Some (VMap pm) ->
    conflict ok pm k' p' ->
    conflict o p k' p'.

(** What the [range] loop of [patchMap] relies on while [todo] is still to
    be visited: the keys to come are untouched in the base, they are the
    entries of [p], and no key comes twice. *)
Definition loop_inv (o0 p o todo : cfgmap) : Prop :=
  (forall k, In k (keys todo) -> get k o = get k o0)
  /\ (forall k v, get k todo = Some v -> get k p = Some v)
  /\ wf_map todo.

Section Loader.

(** [os.Environ()]: the environment as "NAME=VALUE" strings. *)
Variable Environ : list string.

(** [readFromConfigFile]: [os.Stat], [os.ReadFile] and [yaml.Unmarshal]
    into a [map[string]any]. *)
Variable readFromConfigFile : string -> cfgmap + error.

Definition readFromConfigEnv (prefix : string) : outcome cfgmap :=
  scan prefix Environ MNil.

(** [readConfigFromPathAndEnv], up to the mapping it hands to
    [yaml.Marshal]. *)
Definition readConfigFromPathAndEnv (prefix configPath : string)
  : outcome (cfgmap + error) :=
  match
    (if len configPath =? 0 then inl MNil
     else readFromConfigFile configPath)
  with
  | inr err =>
      Returns (inr (Wrap err ("failed to read config from " ++ configPath)))
  | inl config =>
      configEnv <- readFromConfigEnv prefix ;;
      match patchConfigMap configEnv config with
      | (_, Some err) =>
          Returns (inr (Wrap err "failed to patch config env to config file"))
      | (config', None) => Returns (inl config')
      end
  end.

(** [FetchConfig], up to the mapping that is marshalled and decoded into
    the caller's structure. *)
Definition FetchConfig (configPath envPrefix : string)
  : outcome (cfgmap + error) :=
  let prefix := if len envPrefix =? 0 then "CFG" else envPrefix in
  match readConfigFromPathAndEnv prefix configPath with
  | Returns (inr err) =>
      Returns (inr (Wrap err "failed to read and patch config"))
  | r => r
  end.

End Loader.

(* ===================================================================== *)
(** ** Command [conftext]: the syntax trees it walks ([go/ast])            *)
(* ===================================================================== *)

(** The part of [go/ast] the deriver inspects.  [Obj] is the declaration
    the parser resolved an identifier to ([nil] for predeclared names and
    for names declared in another file); it is a tree here, so struct
    types that mention themselves (on which the walk of the Go program
    does not end) are not represented. *)
Module ast.

Inductive Expr : Type :=
| Ident (Name : string) (Obj : option Decl)
| StarExpr (X : Expr)
| SelectorExpr (X : Expr) (Sel : string)
| StructType (Fields : FieldList)
| ArrayType (Elt : Expr)
| MapType (Key : Expr) (Value : Expr)
| OtherExpr (T : string)
    (* any other expression node, with the text [%T] prints for it *)
with Decl : Type :=
| TypeSpec (Name : string) (Type_ : Expr)
| OtherDecl
with Field : Type :=
| mkField (Names : list string) (Type_ : Expr)
          (Tag : option string)          (* [Tag.Value], [None] for a nil [Tag] *)
          (Doc : option (list string))   (* the [Text] of each comment of [Doc] *)
with FieldList : Type :=
| FNil
| FCons (f : Field) (rest : FieldList).

Definition Names (f : Field) : list string :=
  let 'mkField n _ _ _ := f in n.
Definition Type_ (f : Field) : Expr :=
  let 'mkField _ t _ _ := f in t.
Definition Tag (f : Field) : option string :=
  let 'mkField _ _ t _ := f in t.
Definition Doc (f : Field) : option (list string) :=
  let 'mkField _ _ _ d := f in d.

Fixpoint fields (l : list Field) : FieldList :=
  match l with
  | [] => FNil
  | f :: l' => FCons f (fields l')
  end.

End ast.

(* ===================================================================== *)
(** ** Command [conftext]: the path deriver                                *)
(* ===================================================================== *)

(** [Field]: a single field in the config structure. *)
Record Field : Type := mkField {
  Name : string;
  Type_ : string;
  Comment : string
}.

(** [EnvVar]: an environment variable derived from a config field. *)
Record EnvVar : Type := mkEnvVar {
  Chain : list Field
}.

Definition quote : string := String "034"%char "".
Definition backquote : string := String "096"%char "".

Section Deriver.

(** The [-prefix] flag. *)
Variable prefix : string.

Definition Path (e : EnvVar) : string :=
  let parts := if String.eqb prefix "" then [] else [prefix] in
  let parts := (parts ++ map Name (Chain e))%list in
  ToUpper (Join parts "_").

Definition YAMLPath (e : EnvVar) : string :=
  Join (map Name (Chain e)) ".".

Definition LastField (e : EnvVar) : Field :=
  last (Chain e) (mkField "" "" "").

End Deriver.

Definition isPrimitiveType (typeStr : string) : bool :=
  one_of (TrimPrefix typeStr "*") ["string"; "int"; "bool"].

(** The [for] loop of [getYAMLTag] over the space-separated parts. *)
Fixpoint getYAMLTag_parts (parts : list string) : outcome string :=
  match parts with
  | [] => Returns ""
  | tagPart :: rest =>
      if HasPrefix tagPart "yaml:" then
        match nth_error (Split tagPart ":") 1 with
        | None => Panics IndexOutOfRange
        | Some part1 =>
            let content := Trim part1 quote in
            Returns (hd "" (Split content ","))
        end
      else getYAMLTag_parts rest
  end.

Definition getYAMLTag (tag : string) : outcome string :=
  if String.eqb tag "" then Returns ""
  else
    let tag := Trim tag backquote in
    getYAMLTag_parts (Split tag " ").

Fixpoint getTypeString (expr : ast.Expr) : outcome string :=
  match expr with
  | ast.Ident Name _ => Returns Name
  | ast.StarExpr X => s <- getTypeString X ;; Returns ("*" ++ s)
  | ast.SelectorExpr X Sel =>
      match X with
      | ast.Ident XName _ => Returns (XName ++ "." ++ Sel)
      | _ => Panics (TypeAssertionFailed None)
      end
  | ast.StructType _ => Returns "*ast.StructType"
  | ast.ArrayType _ => Returns "*ast.ArrayType"
  | ast.MapType _ _ => Returns "*ast.MapType"
  | ast.OtherExpr T => Returns T
  end.

(** The comment of a field: its [Doc] lines without the leading [//],
    trimmed and joined by a space. *)
Definition fieldComment (doc : option (list string)) : string :=
  match doc with
  | None => ""
  | Some lines =>
      Join (map (fun text => TrimSpace (TrimPrefix text "//")) lines) " "
  end.

(** [processStructFields] and [processField]; [vars] is the slice behind
    the pointer, returned with the entries appended.  [processFieldList]
    is the loop [for _, f := range st.Fields.List]. *)
Fixpoint processStructFields (field : ast.Expr) (chain : list Field)
    (vars : list EnvVar) {struct field} : outcome (list EnvVar) :=
  match field with
  | ast.Ident Name Obj =>
      if isPrimitiveType Name then Returns (vars ++ [mkEnvVar chain])%list
      else
        match Obj with
        | Some (ast.TypeSpec _ (ast.StructType Fields)) =>
            processFieldList Fields chain vars
        | _ => Returns vars
        end
  | ast.StarExpr X =>
      typeStr <- getTypeString X ;;
      if isPrimitiveType typeStr then Returns (vars ++ [mkEnvVar chain])%list
      else processStructFields X chain vars
  | ast.SelectorExpr _ _ => Returns (vars ++ [mkEnvVar chain])%list
  | ast.StructType Fields => processFieldList Fields chain vars
  | _ => Returns vars
  end
with processField (field : ast.Field) (parentChain : list Field)
    (vars : list EnvVar) {struct field} : outcome (list EnvVar) :=
  match field with
  | ast.mkField Names FType Tag Doc =>
      match Names with
      | [] => processStructFields FType parentChain vars
      | Name0 :: _ =>
          match Tag with
          | None => Panics NilDereference
          | Some TagValue =>
              yamlTag <- getYAMLTag TagValue ;;
              let fieldName :=
                if String.eqb yamlTag "" then ToLower Name0 else yamlTag in
              let comment := fieldComment Doc in
              typeStr <- getTypeString FType ;;
              let newField := mkField fieldName typeStr comment in
              let chain := (parentChain ++ [newField])%list in
              processStructFields FType chain vars
          end
      end
  end
with processFieldList (fields : ast.FieldList) (chain : list Field)
    (vars : list EnvVar) {struct fields} : outcome (list EnvVar) :=
  match fields with
  | ast.FNil => Returns vars
  | ast.FCons f rest =>
      vars' <- processField f chain vars ;;
      processFieldList rest chain vars'
  end.

(** The walk started by [main] over the fields of the config struct. *)
Definition deriveVars (configStruct : ast.FieldList) : outcome (list EnvVar) :=
  processFieldList configStruct [] [].

Definition getEnvExampleValue (fieldType : string) : string :=
  let baseType := TrimPrefix fieldType "*" in
  if String.eqb baseType "string" then "string"
  else if HasPrefix baseType "int" || HasPrefix baseType "uint" then "integer"
  else if HasPrefix baseType "float" then "number"
  else if String.eqb baseType "bool" then "true/false"
  else "string".

(** The declarations of the sample file: [Database], [Cache], [Config]. *)
Module Sample.

Definition yamlTag (content : string) : option string :=
  Some (backquote ++ "yaml:" ++ quote ++ content ++ quote ++ backquote).

Definition string_ : ast.Expr := ast.Ident "string" None.
Definition int_ : ast.Expr := ast.Ident "int" None.

Definition Database : ast.Decl :=
  ast.TypeSpec "Database" (ast.StructType (ast.fields [
    ast.mkField ["Host"] string_ (yamlTag "host,omitempty")
      (Some ["// Host is the database server hostname"]);
    ast.mkField ["Port"] int_ (yamlTag "port")
      (Some ["// Port is the database server port number"])])).

Definition Cache : ast.Decl :=
  ast.TypeSpec "Cache" (ast.StructType ast.FNil).

Definition Config : ast.FieldList :=
  ast.fields [
    ast.mkField ["Database"] (ast.Ident "Database" (Some Database))
      (yamlTag "database") (Some ["// Database configuration section"]);
    ast.mkField ["Port"] int_ (yamlTag "port") None;
    ast.mkField ["Cache"] (ast.StarExpr (ast.Ident "Cache" (Some Cache)))
      (yamlTag "cache") None].

End Sample.

(* ===================================================================== *)
(** ** Notions used to state further properties                            *)
(* ===================================================================== *)

(** ASCII upper-case and lower-case letters. *)
Definition is_upper_byte (c : ascii) : bool :=
  let n := nat_of_ascii c in (65 <=? n)%nat && (n <=? 90)%nat.

Definition is_lower_byte (c : ascii) : bool :=
  let n := nat_of_ascii c in (97 <=? n)%nat && (n <=? 122)%nat.

(** [path_clear path m]: walking [path] down [m], no segment before the
    last meets an entry that is not a mapping (an absent entry is fine:
    [parseEnvConfig] creates it). *)
Fixpoint path_clear (path : list string) (m : cfgmap) : bool :=
  match path with
  | [] => true
  | [_] => true
  | k :: rest =>
      match get k m with
      | None => true
      | Some (VMap sub) => path_clear rest sub
      | Some _ => false
      end
  end.

(** [n] pointer stars around a type expression. *)
Fixpoint stars (n : nat) (e : ast.Expr) : ast.Expr :=
  match n with
  | O => e
  | S n' => ast.StarExpr (stars n' e)
  end.

(** The text of a raw-string tag giving the yaml key [content]. *)
Definition yaml_tag_text (content : string) : string :=
  backquote ++ "yaml:" ++ quote ++ content ++ quote ++ backquote.

(** No byte of [s] is one of [cutset]. *)
Fixpoint avoids (s cutset : string) : bool :=
  match s with
  | "" => true
  | String c s' => negb (mem c cutset) && avoids s' cutset
  end.

(** The bytes that cut the text of a tag where [getYAMLTag] looks for
    the yaml key: space, colon, double quote, back quote. *)
Definition tag_delimiters : string :=
  " :" ++ quote ++ backquote.

(** A field as in a flat struct: named, tagged, of a primitive type named
    by an identifier. *)
Definition flat_field (f : ast.Field) : bool :=
  match f with
  | ast.mkField (_ :: _) (ast.Ident tname _) (Some _) _ => isPrimitiveType tname
  | _ => false
  end.

Definition flat_type (f : ast.Field) : string :=
  match f with
  | ast.mkField _ (ast.Ident tname _) _ _ => tname
  | _ => ""
  end.

(* ===================================================================== *)
(** ** Facts about strings                                                 *)
(* ===================================================================== *)

Section StringFacts.

Lemma prefix_one (a b : ascii) (s : string) :
  String.prefix (String a "") (String b s) = Ascii.eqb a b.
Proof.
  change (String.prefix (String a "") (String b s))
    with (if ascii_dec a b then String.prefix "" s else false).
  destruct (ascii_dec a b) as [->|Hab].
  - rewrite Ascii.eqb_refl. destruct s; reflexivity.
  - symmetry. apply Ascii.eqb_neq. exact Hab.
Qed.

Lemma index_one_cons (a c : ascii) (s : string) :
  String.index 0 (String a "") (String c s) =
  if Ascii.eqb a c then Some 0%nat
  else option_map S (String.index 0 (String a "") s).
Proof.
  change (String.index 0 (String a "") (String c s))
    with (if String.prefix (String a "") (String c s) then Some 0%nat
          else match String.index 0 (String a "") s with
               | Some n => Some (S n)
               | None => None
               end).
  rewrite prefix_one. destruct (Ascii.eqb a c); [reflexivity|].
  destruct (String.index 0 (String a "") s); reflexivity.
Qed.

Lemma Split_no_index (a : ascii) (s : string) :
  String.index 0 (String a "") s = None -> Split s a = [s].
Proof.
  induction s as [|c s IH]; [reflexivity|].
  rewrite index_one_cons, (Ascii.eqb_sym a c).
  cbn [Split]. destruct (Ascii.eqb c a); [discriminate|].
  destruct (String.index 0 (String a "") s); [discriminate|].
  intros _. rewrite IH by reflexivity. reflexivity.
Qed.

Lemma Split_at_index (a : ascii) (s : string) (n : nat) :
  String.index 0 (String a "") s = Some n ->
  Split s a = take n s :: Split (drop (S n) s) a.
Proof.
  revert n. induction s as [|c s IH]; intros n.
  - destruct n; discriminate.
  - rewrite index_one_cons, (Ascii.eqb_sym a c).
    cbn [Split]. destruct (Ascii.eqb c a).
    + intros [= <-]. reflexivity.
    + destruct (String.index 0 (String a "") s) as [m|]; [|discriminate].
      intros [= <-]. rewrite (IH m eq_refl). reflexivity.
Qed.

Lemma index_decompose (a : ascii) (s : string) (n : nat) :
  String.index 0 (String a "") s = Some n ->
  s = take n s ++ String a (drop (S n) s)
  /\ String.index 0 (String a "") (take n s) = None.
Proof.
  revert n. induction s as [|c s IH]; intros n.
  - destruct n; discriminate.
  - rewrite index_one_cons.
    destruct (Ascii.eqb a c) eqn:Eac.
    + apply Ascii.eqb_eq in Eac. subst c. intros [= <-]. split; reflexivity.
    + destruct (String.index 0 (String a "") s) as [m|]; [|discriminate].
      intros [= <-]. destruct (IH m eq_refl) as [H1 H2].
      change (take (S m) (String c s)) with (String c (take m s)).
      change (drop (S (S m)) (String c s)) with (drop (S m) s).
      split.
      * cbn [append]. f_equal. exact H1.
      * rewrite index_one_cons, Eac, H2. reflexivity.
Qed.

(** The same facts on [Index], as the code reads them. *)
Lemma Index_cases (s sep : string) :
  (Index s sep = -1 /\ String.index 0 sep s = None)
  \/ (exists n, Index s sep = Z.of_nat n /\ String.index 0 sep s = Some n).
Proof.
  unfold Index. destruct (String.index 0 sep s) as [n|].
  - right. exists n. split; reflexivity.
  - left. split; reflexivity.
Qed.

Lemma Split_no_sep (a : ascii) (s : string) :
  Index s (String a "") = -1 -> Split s a = [s].
Proof.
  destruct (Index_cases s (String a "")) as [[_ H]|[n [-> _]]]; [|lia].
  intros _. apply Split_no_index. exact H.
Qed.

Lemma Split_at_Index (a : ascii) (s : string) (i : Z) :
  Index s (String a "") = i -> i <> -1 ->
  Split s a = take (Z.to_nat i) s :: Split (drop (Z.to_nat (i + 1)) s) a.
Proof.
  destruct (Index_cases s (String a "")) as [[-> _]|[n [-> H]]];
    intros <- Hi; [congruence|].
  replace (Z.to_nat (Z.of_nat n + 1)) with (S n) by lia.
  rewrite Nat2Z.id. apply Split_at_index. exact H.
Qed.

Lemma Index_decompose (a : ascii) (s : string) (i : Z) :
  Index s (String a "") = i -> i <> -1 ->
  s = take (Z.to_nat i) s ++ String a (drop (Z.to_nat (i + 1)) s)
  /\ Index (take (Z.to_nat i) s) (String a "") = -1.
Proof.
  destruct (Index_cases s (String a "")) as [[-> _]|[n [-> H]]];
    intros <- Hi; [congruence|].
  replace (Z.to_nat (Z.of_nat n + 1)) with (S n) by lia.
  rewrite Nat2Z.id. destruct (index_decompose _ _ H) as [H1 H2].
  split; [exact H1|]. unfold Index. rewrite H2. reflexivity.
Qed.

Lemma prefix_app (q r : string) : String.prefix q (q ++ r) = true.
Proof.
  induction q as [|b q IH].
  - destruct r; reflexivity.
  - cbn [append].
    change (String.prefix (String b q) (String b (q ++ r)))
      with (if ascii_dec b b then String.prefix q (q ++ r) else false).
    destruct (ascii_dec b b); [exact IH|congruence].
Qed.

Lemma index_prefix_app (q r : string) :
  String.index 0 q (q ++ r) = Some 0%nat.
Proof.
  destruct q as [|b q].
  - destruct r; reflexivity.
  - change (String.index 0 (String b q) (String b q ++ r))
      with (if String.prefix (String b q) (String b q ++ r) then Some 0%nat
            else match String.index 0 (String b q) (q ++ r) with
                 | Some n => Some (S n)
                 | None => None
                 end).
    rewrite prefix_app. reflexivity.
Qed.

Lemma drop_app (q r : string) : drop (String.length q) (q ++ r) = r.
Proof.
  induction q as [|b q IH]; [destruct r; reflexivity|]. exact IH.
Qed.

Lemma Replace1_prefix (prefix rest : string) :
  Replace1 (prefix ++ rest) prefix = rest.
Proof.
  unfold Replace1. rewrite index_prefix_app.
  change (take 0 (prefix ++ rest)) with "".
  cbn [append Nat.add]. apply drop_app.
Qed.

End StringFacts.

(* ===================================================================== *)
(** ** Facts about mappings                                                *)
(* ===================================================================== *)

(** Induction along the entries of one mapping. *)
Lemma cfgmap_entries_ind (P : cfgmap -> Prop) :
  P MNil ->
  (forall k v rest, P rest -> P (MCons k v rest)) ->
  forall m, P m.
Proof.
  intros H0 HS. fix IH 1. intros [|k v rest]; [exact H0|apply HS, IH].
Qed.

Lemma get_set_eq (k : string) (v : any) (m : cfgmap) :
  get k (set k v m) = Some v.
Proof.
  induction m as [|k' v' rest IH] using cfgmap_entries_ind; cbn [set get].
  - rewrite String.eqb_refl. reflexivity.
  - destruct (String.eqb k k') eqn:E; cbn [get]; rewrite E; [reflexivity|exact IH].
Qed.

Lemma get_set_ne (k k' : string) (v : any) (m : cfgmap) :
  k <> k' -> get k (set k' v m) = get k m.
Proof.
  intros Hne.
  induction m as [|k0 v0 rest IH] using cfgmap_entries_ind; cbn [set get].
  - apply String.eqb_neq in Hne. rewrite Hne. reflexivity.
  - destruct (String.eqb k' k0) eqn:E; cbn [get].
    + apply String.eqb_eq in E. subst k0.
      apply String.eqb_neq in Hne. rewrite Hne. reflexivity.
    + rewrite IH. reflexivity.
Qed.

Lemma set_set (k : string) (v v' : any) (m : cfgmap) :
  set k v (set k v' m) = set k v m.
Proof.
  induction m as [|k0 v0 rest IH] using cfgmap_entries_ind; cbn [set].
  - rewrite String.eqb_refl. reflexivity.
  - destruct (String.eqb k k0) eqn:E; cbn [set]; rewrite E; [reflexivity|].
    rewrite IH. reflexivity.
Qed.

Lemma get_In_keys (k : string) (m : cfgmap) (v : any) :
  get k m = Some v -> In k (keys m).
Proof.
  induction m as [|k0 v0 rest IH] using cfgmap_entries_ind; cbn [get keys].
  - discriminate.
  - destruct (String.eqb k k0) eqn:E.
    + apply String.eqb_eq in E. subst. intros _. left. reflexivity.
    + intros H. right. apply IH. exact H.
Qed.

Lemma wf_get (k : string) (m : cfgmap) (v : any) :
  wf_map m -> get k m = Some v -> wf_any v.
Proof.
  induction m as [|k0 v0 rest IH] using cfgmap_entries_ind; cbn [get].
  - discriminate.
  - intros (_ & Hv & Hrest). destruct (String.eqb k k0).
    + intros [= <-]. exact Hv.
    + apply IH. exact Hrest.
Qed.

(* ===================================================================== *)
(** ** Facts about the environment scan                                    *)
(* ===================================================================== *)

Lemma Split_cons (s : string) (a : ascii) :
  exists h t, Split s a = h :: t.
Proof.
  destruct s as [|c s]; cbn [Split]; [eauto|].
  destruct (Ascii.eqb c a); [eauto|].
  destruct (Split s a); eauto.
Qed.

(** The two branches of [parseEnvConfig]. *)
Lemma parseEnvConfig_leaf (curCfg : cfgmap) (key value : string) :
  Index key "_" = -1 ->
  parseEnvConfig curCfg key value = Returns (set key (coerceValue value) curCfg).
Proof.
  apply (parseEnvConfig_elim
    (fun curCfg key value res =>
       Index key "_" = -1 ->
       res = Returns (set key (coerceValue value) curCfg))).
  - reflexivity.
  - intros c k Hi v _ _ H. rewrite H in Hi. discriminate.
Qed.

Lemma parseEnvConfig_nested (curCfg : cfgmap) (key value : string) :
  Index key "_" <> -1 ->
  parseEnvConfig curCfg key value =
  let i := Index key "_" in
  let thisKey := take (Z.to_nat i) key in
  let curCfg1 :=
    match get thisKey curCfg with
    | Some _ => curCfg
    | None => set thisKey (VMap MNil) curCfg
    end in
  match get thisKey curCfg1 with
  | Some (VMap sub) =>
      sub' <- parseEnvConfig sub (drop (Z.to_nat (i + 1)) key) value ;;
      Returns (set thisKey (VMap sub') curCfg1)
  | found => Panics (TypeAssertionFailed found)
  end.
Proof.
  apply (parseEnvConfig_elim
    (fun curCfg key value res =>
       Index key "_" <> -1 ->
       res =
       let i := Index key "_" in
       let thisKey := take (Z.to_nat i) key in
       let curCfg1 :=
         match get thisKey curCfg with
         | Some _ => curCfg
         | None => set thisKey (VMap MNil) curCfg
         end in
       match get thisKey curCfg1 with
       | Some (VMap sub) =>
           sub' <- parseEnvConfig sub (drop (Z.to_nat (i + 1)) key) value ;;
           Returns (set thisKey (VMap sub') curCfg1)
       | found => Panics (TypeAssertionFailed found)
       end)).
  - intros c k e v _ H. apply Z.eqb_eq in e. contradiction.
  - intros c k Hi v _ _ _. cbv zeta.
    destruct (get _ _) as [[ | | | | | ]|]; reflexivity.
Qed.

(** Where [parseEnvConfig] returns, the leaf sits at the path obtained by
    splitting the key at every underscore. *)
Lemma parseEnvConfig_path (curCfg : cfgmap) (key value : string) :
  forall cfg, parseEnvConfig curCfg key value = Returns cfg ->
  get_path (Split key "_") cfg = Some (coerceValue value).
Proof.
  apply (parseEnvConfig_elim
    (fun curCfg key value res =>
       forall cfg, res = Returns cfg ->
       get_path (Split key "_") cfg = Some (coerceValue value))).
  - intros c k e v _ cfg [= <-]. apply Z.eqb_eq in e.
    rewrite (Split_no_sep "_" k e). cbn [get_path]. apply get_set_eq.
  - intros c k Hi v IH _ cfg. cbv zeta in *.
    apply Z.eqb_neq in Hi.
    rewrite (Split_at_Index "_" k eq_refl Hi).
    set (thisKey := take (Z.to_nat (Index k "_")) k) in *.
    set (rest := drop (Z.to_nat (Index k "_" + 1)) k) in *.
    set (c1 := match get thisKey c with Some _ => c | None => _ end).
    destruct (get thisKey c1) as [[ | | | | |sub]|]; try discriminate.
    destruct (parseEnvConfig sub rest v) as [sub'|] eqn:E; cbn [bind];
      [|discriminate].
    intros [= <-].
    destruct (Split_cons rest "_") as (h & t & Hs).
    specialize (IH (VMap sub) sub sub'). rewrite E in IH.
    specialize (IH eq_refl). rewrite Hs in *.
    cbn [get_path]. rewrite get_set_eq. exact IH.
Qed.

(** On a fresh overlay the call always returns. *)
Lemma parseEnvConfig_fresh (curCfg : cfgmap) (key value : string) :
  curCfg = MNil -> exists cfg, parseEnvConfig curCfg key value = Returns cfg.
Proof.
  apply (parseEnvConfig_elim
    (fun curCfg key value res =>
       curCfg = MNil -> exists cfg, res = Returns cfg)).
  - intros c k e v _ _. eauto.
  - intros c k Hi v IH _ ->. cbv zeta in *.
    cbn [get set]. rewrite String.eqb_refl.
    destruct (IH VNull MNil eq_refl) as [sub' ->]. cbn [bind]. eauto.
Qed.

(* ===================================================================== *)
(** ** Facts about the merge                                               *)
(* ===================================================================== *)

Lemma loop_inv_start (o p : cfgmap) : wf_map p -> loop_inv o p o p.
Proof. intros Hwf. repeat split; auto. Qed.

Lemma loop_inv_head (o0 p o : cfgmap) (k : string) (pk : any) (rest : cfgmap) :
  loop_inv o0 p o (MCons k pk rest) ->
  get k o = get k o0 /\ get k p = Some pk /\ wf_any pk.
Proof.
  intros (H1 & H2 & Hwf). repeat split.
  - apply H1. left. reflexivity.
  - apply H2. cbn [get]. rewrite String.eqb_refl. reflexivity.
  - apply Hwf.
Qed.

Lemma loop_inv_step (o0 p o : cfgmap) (k : string) (pk : any) (rest : cfgmap)
    (v : any) :
  loop_inv o0 p o (MCons k pk rest) -> loop_inv o0 p (set k v o) rest.
Proof.
  intros (H1 & H2 & (Hk & _ & Hwf)). repeat split.
  - intros k' Hin. rewrite get_set_ne by (intros ->; contradiction).
    apply H1. right. exact Hin.
  - intros k' v' Hget. apply H2. cbn [get].
    destruct (String.eqb k' k) eqn:E; [|exact Hget].
    apply String.eqb_eq in E. subst k'.
    apply get_In_keys in Hget. contradiction.
  - exact Hwf.
Qed.

(** Every error the merge returns names a key in a subtree/scalar
    conflict between the two mappings. *)
Lemma patchMap_loop_sound (todo : cfgmap) :
  forall p o0 o e,
    loop_inv o0 p o todo ->
    snd (patchMap_loop p o todo) = Some e ->
    exists k' p', e = NotAMap k' p' /\ conflict o0 p k' p'.
Proof.
  pose (Q := fun todo => forall p o0 o e,
    loop_inv o0 p o todo ->
    snd (patchMap_loop p o todo) = Some e ->
    exists k' p', e = NotAMap k' p' /\ conflict o0 p k' p').
  change (Q todo).
  apply (cfgmap_any_ind
           (fun v => match v with VMap m => Q m | _ => True end) Q);
    try (intros; exact I); unfold Q.
  - intros m Hm. exact Hm.
  - intros p o0 o e _ H. discriminate H.
  - intros k pk IHpk rest IHrest p o0 o e Hinv.
    destruct (loop_inv_head Hinv) as (Ho & Hp & Hwfpk).
    cbn [patchMap_loop]. rewrite Ho.
    destruct (get k o0) as [[ | | | | |ok]|] eqn:Eo;
      try (apply IHrest; eapply loop_inv_step; exact Hinv).
    destruct pk as [ | | | | |pm];
      try (intros [= <-]; exists k, p; split; [reflexivity|];
           eapply conflict_here; eauto).
    destruct (patchMap_loop pm ok pm) as [ok' [err|]] eqn:Enest.
    + intros [= <-].
      destruct (IHpk pm ok ok err (loop_inv_start ok pm Hwfpk)) as (k' & p' & -> & Hc).
      { rewrite Enest. reflexivity. }
      exists k', p'. split; [reflexivity|].
      eapply conflict_below; eauto.
    + apply IHrest. eapply loop_inv_step. exact Hinv.
Qed.

(** A key the loop does not visit keeps its value in the base. *)
Lemma patchMap_loop_other (todo : cfgmap) :
  forall p o k, ~ In k (keys todo) ->
    get k (fst (patchMap_loop p o todo)) = get k o.
Proof.
  induction todo as [|k0 pk rest IH] using cfgmap_entries_ind;
    intros p o k Hk; [reflexivity|].
  cbn [keys] in Hk. cbn [patchMap_loop].
  assert (Hne : k <> k0) by (intros ->; apply Hk; left; reflexivity).
  assert (Hrest : ~ In k (keys rest)) by (intros H; apply Hk; right; exact H).
  destruct (get k0 o) as [[ | | | | |ok]|];
    try (rewrite IH by exact Hrest; apply get_set_ne; exact Hne).
  destruct pk as [ | | | | |pm]; try reflexivity.
  destruct (patchMap_loop pm ok pm) as [ok' [err|]].
  - cbn [fst]. apply get_set_ne. exact Hne.
  - rewrite IH by exact Hrest. apply get_set_ne. exact Hne.
Qed.

(** A subtree/scalar conflict at a key still to be visited, or an error
    of the nested merge at such a key, makes the loop fail. *)
Lemma patchMap_loop_hits (todo : cfgmap) :
  forall p o0 o kc ok pk,
    loop_inv o0 p o todo ->
    In kc (keys todo) ->
    get kc o0 = Some (VMap ok) -> get kc p = Some pk ->
    match pk with
    | VMap pm => snd (patchMap ok pm) <> None
    | _ => True
    end ->
    snd (patchMap_loop p o todo) <> None.
Proof.
  induction todo as [|k0 pk0 rest IH] using cfgmap_entries_ind;
    intros p o0 o kc ok pk Hinv Hin Hok Hpk Hbad; [destruct Hin|].
  destruct (loop_inv_head Hinv) as (Ho & Hp & _).
  cbn [patchMap_loop].
  destruct (String.eqb kc k0) eqn:E.
  - apply String.eqb_eq in E. subst k0.
    rewrite Ho, Hok. rewrite Hp in Hpk. injection Hpk as ->.
    destruct pk as [ | | | | |pm]; try discriminate.
    unfold patchMap in Hbad.
    destruct (patchMap_loop pm ok pm) as [ok' [err|]]; cbn [snd] in *;
      [discriminate|congruence].
  - apply String.eqb_neq in E.
    assert (Hin' : In kc (keys rest)).
    { destruct Hin as [H|H]; [congruence|exact H]. }
    assert (Hnext : forall v, snd (patchMap_loop p (set k0 v o) rest) <> None).
    { intros v. eapply IH; eauto. eapply loop_inv_step. exact Hinv. }
    destruct (get k0 o) as [[ | | | | |ok0]|]; try apply Hnext.
    destruct pk0 as [ | | | | |pm0]; try discriminate.
    destruct (patchMap_loop pm0 ok0 pm0) as [ok' [err|]];
      [discriminate|apply Hnext].
Qed.

Lemma patchMap_complete (o p : cfgmap) (k' : string) (p' : cfgmap) :
  conflict o p k' p' -> wf_map p -> snd (patchMap o p) <> None.
Proof.
  induction 1 as [o p k ok pk Ho Hp Hm | o p k ok pm k' p' Ho Hp Hc IH];
    intros Hwf.
  - unfold patchMap.
    eapply patchMap_loop_hits with (kc := k);
      eauto using loop_inv_start, get_In_keys.
    destruct pk; try exact I. discriminate.
  - unfold patchMap.
    eapply patchMap_loop_hits with (kc := k) (pk := VMap pm);
      eauto using loop_inv_start, get_In_keys.
    apply IH. exact (wf_get k p Hwf Hp).
Qed.

(** The entry the merge leaves at a key of the overlay, when it returns
    no error: the nested merge where both sides hold mappings, the
    overlay's value otherwise. *)
Lemma patchMap_loop_get (todo : cfgmap) :
  forall p o0 o k pk,
    loop_inv o0 p o todo ->
    snd (patchMap_loop p o todo) = None ->
    get k todo = Some pk ->
    get k (fst (patchMap_loop p o todo)) =
    match get k o0, pk with
    | Some (VMap ok), VMap pm => Some (VMap (fst (patchMap ok pm)))
    | _, _ => Some pk
    end.
Proof.
  induction todo as [|k0 pk0 rest IH] using cfgmap_entries_ind;
    intros p o0 o k pk Hinv Hnone Hget; [discriminate|].
  destruct (loop_inv_head Hinv) as (Ho & Hp & _).
  pose proof Hinv as (_ & _ & (Hk0 & _ & _)).
  cbn [get] in Hget. cbn [patchMap_loop] in *.
  destruct (String.eqb k k0) eqn:E.
  - apply String.eqb_eq in E. subst k0. injection Hget as <-.
    rewrite Ho in *.
    destruct (get k o0) as [[ | | | | |ok]|];
      try (rewrite patchMap_loop_other by exact Hk0; apply get_set_eq).
    destruct pk0 as [ | | | | |pm]; try discriminate.
    unfold patchMap.
    destruct (patchMap_loop pm ok pm) as [ok' [err|]]; [discriminate|].
    rewrite patchMap_loop_other by exact Hk0. apply get_set_eq.
  - assert (Hnext : forall v, snd (patchMap_loop p (set k0 v o) rest) = None ->
        get k (fst (patchMap_loop p (set k0 v o) rest)) =
        match get k o0, pk with
        | Some (VMap ok), VMap pm => Some (VMap (fst (patchMap ok pm)))
        | _, _ => Some pk
        end).
    { intros v Hv. eapply IH; eauto. eapply loop_inv_step. exact Hinv. }
    destruct (get k0 o) as [[ | | | | |ok0]|]; try (apply Hnext; exact Hnone).
    destruct pk0 as [ | | | | |pm0]; try discriminate.
    destruct (patchMap_loop pm0 ok0 pm0) as [ok' [err|]];
      [discriminate|apply Hnext; exact Hnone].
Qed.

Lemma digits_all (s : string) :
  forall acc n, digits acc s = Some n ->
  forall c, mem c s = true -> digit_of c <> None.
Proof.
  induction s as [|d s IH]; intros acc n H c Hc; [discriminate|].
  cbn [digits] in H. cbn [mem] in Hc.
  destruct (digit_of d) as [v|] eqn:Ed; [|discriminate].
  apply orb_true_iff in Hc. destruct Hc as [Hc|Hc].
  - apply Ascii.eqb_eq in Hc. subst c. congruence.
  - eapply IH; eauto.
Qed.

(** [Atoi] accepts a value only as a whole: an optional sign followed by
    digits and nothing else, within the 64-bit range. *)
Lemma Atoi_whole (s : string) (n : Z) :
  Atoi s = Some n ->
  exists body,
    (s = body \/ s = String "+" body \/ s = String "-" body)
    /\ body <> ""
    /\ (forall c, mem c body = true -> digit_of c <> None)
    /\ minInt <= n <= maxInt.
Proof.
  unfold Atoi.
  set (signed := match s with
                 | String "-" rest => option_map Z.opp (unsigned_dec rest)
                 | String "+" rest => unsigned_dec rest
                 | _ => unsigned_dec s
                 end).
  assert (Hs : forall m, signed = Some m ->
            exists body,
              (s = body \/ s = String "+" body \/ s = String "-" body)
              /\ body <> ""
              /\ (forall c, mem c body = true -> digit_of c <> None)).
  { intros m Hm.
    assert (Hu : forall t k, unsigned_dec t = Some k ->
              t <> "" /\ forall c, mem c t = true -> digit_of c <> None).
    { intros t k Ht. destruct t as [|d t]; [discriminate|].
      split; [discriminate|]. exact (digits_all _ _ Ht). }
    subst signed. destruct s as [|a s']; [discriminate|].
    destruct (Ascii.eqb a "-") eqn:Em; [|destruct (Ascii.eqb a "+") eqn:Ep].
    - apply Ascii.eqb_eq in Em. subst a.
      destruct (unsigned_dec s') as [k|] eqn:Ek; [|discriminate].
      destruct (Hu _ _ Ek) as [H1 H2]. exists s'. auto.
    - apply Ascii.eqb_eq in Ep. subst a.
      destruct (Hu _ _ Hm) as [H1 H2]. exists s'. auto.
    - assert (Hm' : unsigned_dec (String a s') = Some m).
      { destruct a as [[] [] [] [] [] [] [] []]; try exact Hm;
          discriminate. }
      destruct (Hu _ _ Hm') as [H1 H2]. exists (String a s'). auto. }
  destruct signed as [m|]; [|discriminate].
  destruct ((minInt <=? m) && (m <=? maxInt)) eqn:Er; [|discriminate].
  intros [= <-]. destruct (Hs m eq_refl) as (body & H1 & H2 & H3).
  exists body. repeat split; auto;
    apply andb_true_iff in Er; destruct Er; lia.
Qed.

(** With the separator made part of the prefix, the key handed to
    [parseEnvConfig] for PREFIX_A_B is a_b and the overlay reaches the
    leaf of the file. *)
Lemma merge_with_separator_in_prefix :
  envKey "PREFIX_" "PREFIX_A_B" = "a_b"
  /\ readConfigFromPathAndEnv ["PREFIX_A_B=2"]
       (fun _ => inl (of_list [("a", VMap (of_list [("b", VInt 1)]))]))
       "PREFIX_" "config.yaml"
     = Returns (inl (of_list [("a", VMap (of_list [("b", VInt 2)]))])).
Proof. split; vm_compute; reflexivity. Qed.

(** A mapping of the overlay put over a scalar of the base replaces it,
    whatever the scalar is. *)
Lemma patchMap_subtree_over_scalar (o : cfgmap) (k : string) (v : any)
    (pm : cfgmap) :
  get k o = Some v -> is_map v = false ->
  patchMap o (MCons k (VMap pm) MNil) = (set k (VMap pm) o, None).
Proof.
  intros Hget Hv. unfold patchMap. cbn [patchMap_loop]. rewrite Hget.
  destruct v; try reflexivity. discriminate.
Qed.

(** A named field carrying a tag: the segment is the yaml name of the tag,
    or the lower-cased field name when the tag gives none. *)
Lemma processField_tagged (Name0 : string) (more : list string)
    (FType : ast.Expr) (TagValue : string) (Doc : option (list string))
    (parentChain : list Field) (vars : list EnvVar) :
  processField (ast.mkField (Name0 :: more) FType (Some TagValue) Doc)
    parentChain vars =
  yamlTag <- getYAMLTag TagValue ;;
  typeStr <- getTypeString FType ;;
  processStructFields FType
    (parentChain ++
       [mkField (if String.eqb yamlTag "" then ToLower Name0 else yamlTag)
          typeStr (fieldComment Doc)])%list
    vars.
Proof. reflexivity. Qed.

Lemma scan_no_match (prefix : string) (environ : list string) (envCfg : cfgmap) :
  forallb (fun v => negb (HasPrefix v prefix)) environ = true ->
  scan prefix environ envCfg = Returns envCfg.
Proof.
  induction environ as [|v rest IH]; [reflexivity|].
  cbn [forallb scan]. intros H. apply andb_true_iff in H. destruct H as [Hv Hr].
  unfold scanEntry. apply negb_true_iff in Hv. rewrite Hv. cbn [bind].
  apply IH. exact Hr.
Qed.

(* ===================================================================== *)
(** ** The claims                                                          *)
(* ===================================================================== *)

(** C1. Merge precedence, end to end, with prefix PREFIX: for the file
    mapping {a: {b: 1}} and the variable PREFIX_A_B=2 the loader returns
    a mapping whose leaf a.b is still the file's 1; the environment value
    2 is filed under the empty key, at ""."a"."b".  Likewise for the file
    {a: {b: 1, c: 2}} and PREFIX_A_B=9: a.b stays 1 (and a.c stays 2).
    The environment value does not reach the leaf the claim names. *)
Theorem merge_precedence_prefix_without_separator :
  (exists merged,
     readConfigFromPathAndEnv ["PREFIX_A_B=2"]
       (fun _ => inl (of_list [("a", VMap (of_list [("b", VInt 1)]))]))
       "PREFIX" "config.yaml" = Returns (inl merged)
     /\ get_path ["a"; "b"] merged = Some (VInt 1)
     /\ get_path [""; "a"; "b"] merged = Some (VInt 2))
  /\ (exists merged,
     readConfigFromPathAndEnv ["PREFIX_A_B=9"]
       (fun _ => inl (of_list
          [("a", VMap (of_list [("b", VInt 1); ("c", VInt 2)]))]))
       "PREFIX" "config.yaml" = Returns (inl merged)
     /\ get_path ["a"; "b"] merged = Some (VInt 1)
     /\ get_path ["a"; "c"] merged = Some (VInt 2)
     /\ get_path [""; "a"; "b"] merged = Some (VInt 9)).
Proof.
  split; eexists; (split; [vm_compute; reflexivity|]);
    repeat split; vm_compute; reflexivity.
Qed.

(** C2. The key handed to the path builder is the variable's name with
    the prefix alone removed, lower-cased: whatever follows the prefix is
    kept, the separator included.  For prefix P and variable P_A_B the
    construction starts from "_a_b", not "a_b", and the value lands under
    the empty key. *)
Theorem env_key_keeps_separator :
  (forall prefix rest, envKey prefix (prefix ++ rest) = ToLower rest)
  /\ envKey "P" (envName "P_A_B=1") = "_a_b"
  /\ envKey "P" (envName "P_A_B=1") <> "a_b"
  /\ scan "P" ["P_A_B=1"] MNil =
     Returns (of_list
       [("", VMap (of_list [("a", VMap (of_list [("b", VInt 1)]))]))]).
Proof.
  split; [|split; [|split]].
  - intros prefix rest. unfold envKey. rewrite Replace1_prefix. reflexivity.
  - vm_compute. reflexivity.
  - vm_compute. discriminate.
  - vm_compute. reflexivity.
Qed.

(** C3. A key at which the file side holds a scalar and the environment
    side a nested mapping: the merge returns no error and the mapping
    replaces the scalar.  (The other direction, a mapping on the file side
    and a scalar on the environment side, fails: see C4.) *)
Theorem patchMap_scalar_under_subtree_no_error :
  patchMap (of_list [("a", VInt 1)])
           (of_list [("a", VMap (of_list [("b", VInt 2)]))])
  = (of_list [("a", VMap (of_list [("b", VInt 2)]))], None).
Proof. vm_compute. reflexivity. Qed.

(** C4. For every base [o] and every overlay [p] (a Go map: no key
    twice), and every key [k] of [p]:
    - if [o] holds a mapping at [k] and [p] a non-mapping, the merge
      returns the type-mismatch error; the error names a key in such a
      conflict ([k] itself when [k] is the only entry of [p]);
    - if [o] holds a non-mapping at [k] or nothing, that key raises no
      error, and a merge that returns no error leaves the overlay's value
      at [k]. *)
Theorem patchMap_conflict_and_overlay (o p : cfgmap) :
  wf_map p ->
  forall k pk, get k p = Some pk ->
    (forall ok, get k o = Some (VMap ok) -> is_map pk = false ->
       (exists k' p', snd (patchMap o p) = Some (NotAMap k' p')
                      /\ conflict o p k' p')
       /\ patchMap o (MCons k pk MNil) = (o, Some (NotAMap k (MCons k pk MNil))))
    /\ ((get k o = None \/ exists v, get k o = Some v /\ is_map v = false) ->
        patchMap o (MCons k pk MNil) = (set k pk o, None)
        /\ (snd (patchMap o p) = None ->
            get k (fst (patchMap o p)) = Some pk)).
Proof.
  intros Hwf k pk Hp. split.
  - intros ok Ho Hpk. split.
    + assert (Hc : conflict o p k p) by (eapply conflict_here; eauto).
      destruct (snd (patchMap o p)) as [e|] eqn:E.
      * destruct (@patchMap_loop_sound p p o o e (loop_inv_start o p Hwf) E)
          as (k' & p' & -> & Hc').
        exists k', p'. split; [reflexivity|exact Hc'].
      * exfalso. exact (patchMap_complete Hc Hwf E).
    + unfold patchMap. cbn [patchMap_loop]. rewrite Ho.
      destruct pk; try reflexivity. discriminate.
  - intros Ho. split.
    + unfold patchMap. cbn [patchMap_loop].
      destruct Ho as [->|(v & -> & Hv)]; [reflexivity|].
      destruct v; try reflexivity. discriminate.
    + intros Hnone. unfold patchMap in *.
      rewrite (@patchMap_loop_get p p o o k pk (loop_inv_start o p Hwf) Hnone Hp).
      destruct Ho as [->|(v & -> & Hv)]; [reflexivity|].
      destruct v; try reflexivity. discriminate.
Qed.

(** The file {a: {b: 1}, port: 80} under the overlay {a: 5, port: 8080}. *)
Lemma patchMap_conflict_and_overlay_witness :
  let o := of_list [("a", VMap (of_list [("b", VInt 1)])); ("port", VInt 80)] in
  let p := of_list [("port", VInt 8080); ("a", VInt 5)] in
  wf_map p
  /\ (exists k' p', snd (patchMap o p) = Some (NotAMap k' p')
                    /\ conflict o p k' p')
  /\ patchMap o (MCons "port" (VInt 8080) MNil)
     = (set "port" (VInt 8080) o, None).
Proof.
  intros o p.
  assert (Hwf : wf_map p).
  { cbn. repeat split; auto; intros [H|[]]; discriminate H. }
  split; [exact Hwf|]. split.
  - apply (proj1 (@patchMap_conflict_and_overlay o p Hwf "a" (VInt 5) eq_refl)
             (of_list [("b", VInt 1)]) eq_refl eq_refl).
  - apply (proj2 (@patchMap_conflict_and_overlay o p Hwf "port" (VInt 8080) eq_refl)).
    right. exists (VInt 80). split; reflexivity.
Defined.

(** C5. A named field without a tag: [processField] dereferences the nil
    [Tag] and panics before any segment name is computed; nothing is
    emitted, for every field name, type and chain. *)
Theorem processField_untagged_panics :
  (forall Name0 more FType Doc parentChain vars,
     processField (ast.mkField (Name0 :: more) FType None Doc) parentChain vars
     = Panics NilDereference)
  /\ deriveVars (ast.fields [ast.mkField ["Port"] Sample.int_ None None])
     = Panics NilDereference.
Proof. split; reflexivity. Qed.

(** C6. For the sample declarations Database {Host string; Port int},
    Cache {} and Config {Database Database; Port int; Cache *Cache} with
    prefix MYAPP, the walk returns and the paths of the emitted variables
    are exactly MYAPP_DATABASE_HOST, MYAPP_DATABASE_PORT, MYAPP_PORT, in
    that order; no emitted chain goes through the field cache. *)
Theorem sample_config_env_keys :
  exists vars,
    deriveVars Sample.Config = Returns vars
    /\ map (Path "MYAPP") vars =
       ["MYAPP_DATABASE_HOST"; "MYAPP_DATABASE_PORT"; "MYAPP_PORT"]
    /\ forallb (fun e =>
         negb (existsb (fun f => String.eqb (Name f) "cache") (Chain e)))
         vars = true.
Proof.
  eexists. split; [vm_compute; reflexivity|].
  split; vm_compute; reflexivity.
Qed.

(** C7. For every value string, the leaf [parseEnvConfig] stores is the
    integer when [strconv.Atoi] accepts the whole value, else the boolean
    when [strconv.ParseBool] accepts it, else the string itself: whenever
    the call returns, that leaf sits at the path of the key, and on a
    fresh overlay the call always returns; "42" gives the integer 42,
    "true" the boolean true, "hello" the string "hello". *)
Theorem env_value_coercion :
  (forall curCfg key value,
     match parseEnvConfig curCfg key value with
     | Returns cfg =>
         get_path (Split key "_") cfg =
         Some (match Atoi value with
               | Some intVal => VInt intVal
               | None =>
                   match ParseBool value with
                   | Some boolVal => VBool boolVal
                   | None => VStr value
                   end
               end)
     | Panics _ => True
     end)
  /\ (forall key value, exists cfg, parseEnvConfig MNil key value = Returns cfg)
  /\ parseEnvConfig MNil "port" "42" = Returns (of_list [("port", VInt 42)])
  /\ parseEnvConfig MNil "debug" "true" = Returns (of_list [("debug", VBool true)])
  /\ parseEnvConfig MNil "name" "hello" = Returns (of_list [("name", VStr "hello")]).
Proof.
  split; [|split; [|repeat split; vm_compute; reflexivity]].
  - intros curCfg key value.
    destruct (parseEnvConfig curCfg key value) as [cfg|] eqn:E; [|exact I].
    exact (parseEnvConfig_path curCfg key value E).
  - intros key value. exact (@parseEnvConfig_fresh MNil key value eq_refl).
Qed.

(** C8. For every key given to [parseEnvConfig]: without an underscore the
    coerced value is stored at the key as a leaf; with one, the key is the
    text before the first underscore (which holds no underscore), the
    underscore, and a remainder; the text before it is the immediate key,
    whose entry (created empty when absent) is asserted to be a mapping,
    and the construction recurses into that mapping on the remainder. *)
Theorem nested_path_construction (curCfg : cfgmap) (key value : string) :
  (Index key "_" = -1 ->
     parseEnvConfig curCfg key value =
     Returns (set key (coerceValue value) curCfg))
  /\ (Index key "_" <> -1 ->
      let thisKey := take (Z.to_nat (Index key "_")) key in
      let rest := drop (Z.to_nat (Index key "_" + 1)) key in
      key = thisKey ++ "_" ++ rest
      /\ Index thisKey "_" = -1
      /\ parseEnvConfig curCfg key value =
         match get thisKey curCfg with
         | None =>
             sub' <- parseEnvConfig MNil rest value ;;
             Returns (set thisKey (VMap sub') curCfg)
         | Some (VMap sub) =>
             sub' <- parseEnvConfig sub rest value ;;
             Returns (set thisKey (VMap sub') curCfg)
         | Some found => Panics (TypeAssertionFailed (Some found))
         end).
Proof.
  split.
  - apply parseEnvConfig_leaf.
  - intros Hi thisKey rest.
    destruct (Index_decompose "_" key eq_refl Hi) as [Hkey Hthis].
    split; [exact Hkey|]. split; [exact Hthis|].
    rewrite (parseEnvConfig_nested curCfg key value Hi). cbv zeta.
    fold thisKey. fold rest.
    destruct (get thisKey curCfg) as [found|] eqn:E.
    + rewrite E. destruct found; reflexivity.
    + rewrite get_set_eq.
      destruct (parseEnvConfig MNil rest value); cbn [bind]; [|reflexivity].
      rewrite set_set. reflexivity.
Qed.

(** The key "pg_host" on the overlay {pg: {port: 5432}}. *)
Lemma nested_path_construction_witness :
  let curCfg := of_list [("pg", VMap (of_list [("port", VInt 5432)]))] in
  Index "pg_host" "_" <> -1
  /\ parseEnvConfig curCfg "pg_host" "db" =
     Returns (of_list [("pg", VMap (of_list [("port", VInt 5432);
                                              ("host", VStr "db")]))])
  /\ Index "host" "_" = -1
  /\ parseEnvConfig MNil "host" "db" = Returns (of_list [("host", VStr "db")]).
Proof.
  intros curCfg.
  assert (Hi : Index "pg_host" "_" <> -1) by (vm_compute; discriminate).
  split; [exact Hi|]. split; [|split; [reflexivity|]].
  - destruct (proj2 (nested_path_construction curCfg "pg_host" "db") Hi)
      as (_ & _ & ->).
    vm_compute. reflexivity.
  - apply (proj1 (nested_path_construction MNil "host" "db")). reflexivity.
Defined.

(** C9. Merging the empty overlay returns no error and leaves the base
    mapping as it is, for [patchMap] and for [patchConfigMap]; a loader
    run with an empty environment returns the file's mapping. *)
Theorem patchMap_empty_overlay :
  (forall base, patchMap base MNil = (base, None))
  /\ (forall base, patchConfigMap MNil base = (base, None))
  /\ (forall base prefix,
        readConfigFromPathAndEnv [] (fun _ => inl base) prefix "config.yaml"
        = Returns (inl base)).
Proof.
  split; [|split].
  - intros base. reflexivity.
  - intros base. reflexivity.
  - intros base prefix. reflexivity.
Qed.

(** C10. With the environment CFG_A=1, CFG_A_B=2 (in that order) and
    prefix CFG, the scan panics on the type assertion of [parseEnvConfig]
    (the entry already holds the integer 1); [FetchConfig] panics with it
    instead of returning an error value. *)
Theorem env_scan_panics_on_scalar_then_subtree :
  readFromConfigEnv ["CFG_A=1"; "CFG_A_B=2"] "CFG"
    = Panics (TypeAssertionFailed (Some (VInt 1)))
  /\ (forall readFromConfigFile,
        FetchConfig ["CFG_A=1"; "CFG_A_B=2"] readFromConfigFile "" ""
        = Panics (TypeAssertionFailed (Some (VInt 1)))).
Proof. split; [vm_compute; reflexivity|intros rf; vm_compute; reflexivity]. Qed.

(* ===================================================================== *)
(** ** Further facts about mappings                                        *)
(* ===================================================================== *)

Lemma In_keys_set (k k' : string) (v : any) (m : cfgmap) :
  In k' (keys (set k v m)) <-> k' = k \/ In k' (keys m).
Proof.
  induction m as [|k0 v0 rest IH] using cfgmap_entries_ind; cbn [set keys].
  - cbn. intuition congruence.
  - destruct (String.eqb k k0) eqn:E; cbn [keys In].
    + apply String.eqb_eq in E. subst k0. intuition congruence.
    + rewrite IH. intuition congruence.
Qed.

Lemma get_None_keys (k : string) (m : cfgmap) :
  get k m = None <-> ~ In k (keys m).
Proof.
  induction m as [|k0 v0 rest IH] using cfgmap_entries_ind; cbn [get keys In].
  - intuition.
  - destruct (String.eqb k k0) eqn:E.
    + apply String.eqb_eq in E. subst k0. split; [discriminate|].
      intros H. exfalso. apply H. left. reflexivity.
    + apply String.eqb_neq in E. rewrite IH. intuition congruence.
Qed.

Lemma wf_set (k : string) (v : any) (m : cfgmap) :
  wf_map m -> wf_any v -> wf_map (set k v m).
Proof.
  intros Hm Hv.
  induction m as [|k0 v0 rest IH] using cfgmap_entries_ind; cbn [set].
  - cbn. auto.
  - destruct Hm as (Hk0 & Hv0 & Hrest).
    destruct (String.eqb k k0) eqn:E.
    + cbn [wf_map]. auto.
    + apply String.eqb_neq in E. cbn [wf_map]. repeat split; auto.
      rewrite In_keys_set. intros [H|H]; [congruence|contradiction].
Qed.

(* ===================================================================== *)
(** ** Further facts about the merge                                       *)
(* ===================================================================== *)

(** Whatever the loop does, an entry of the base stays, and a mapping
    stays a mapping. *)
Lemma patchMap_loop_keeps (todo : cfgmap) :
  forall p o k v,
    get k o = Some v ->
    exists v', get k (fst (patchMap_loop p o todo)) = Some v'
               /\ (is_map v = true -> is_map v' = true).
Proof.
  induction todo as [|k0 pk rest IH] using cfgmap_entries_ind;
    intros p o k v Hget; [exists v; auto|].
  cbn [patchMap_loop].
  assert (Hstep : forall x,
            (k = k0 -> is_map v = true -> is_map x = true) ->
            exists v', get k (fst (patchMap_loop p (set k0 x o) rest)) = Some v'
                       /\ (is_map v = true -> is_map v' = true)).
  { intros x Hx. destruct (String.eqb k k0) eqn:E.
    - apply String.eqb_eq in E. subst k0.
      destruct (IH p (set k x o) k x (get_set_eq k x o)) as (v' & H1 & H2).
      exists v'. split; [exact H1|]. intros Hm. apply H2. apply Hx; auto.
    - apply String.eqb_neq in E.
      apply IH. rewrite get_set_ne by exact E. exact Hget. }
  destruct (get k0 o) as [[ | | | | |ok]|] eqn:Eo;
    try (apply Hstep; intros ->; rewrite Hget in Eo; injection Eo as ->;
         discriminate).
  - destruct pk as [ | | | | |pm];
      try solve [cbn [fst]; exists v; split; [exact Hget|auto]].
    destruct (patchMap_loop pm ok pm) as [ok' [err|]].
    + cbn [fst]. destruct (String.eqb k k0) eqn:E.
      * apply String.eqb_eq in E. subst k0. rewrite get_set_eq.
        exists (VMap ok'). auto.
      * apply String.eqb_neq in E. rewrite get_set_ne by exact E.
        exists v. auto.
    + apply Hstep. reflexivity.
  - apply Hstep. intros ->. rewrite Hget in Eo. discriminate.
Qed.

(** The nested merge of a merge that succeeds succeeds. *)
Lemma patchMap_nested_ok (o p : cfgmap) (k : string) (ok pm : cfgmap) :
  wf_map p -> snd (patchMap o p) = None ->
  get k o = Some (VMap ok) -> get k p = Some (VMap pm) ->
  snd (patchMap ok pm) = None.
Proof.
  intros Hwf Hnone Ho Hp.
  destruct (snd (patchMap ok pm)) as [e|] eqn:E; [|reflexivity].
  exfalso.
  apply (@patchMap_loop_hits p p o o k ok (VMap pm)
           (loop_inv_start o p Hwf) (get_In_keys k p Hp) Ho Hp);
    [|exact Hnone].
  cbn. rewrite E. discriminate.
Qed.

Lemma patchMap_leaf_at_path (path : list string) :
  forall o p v,
    wf_map p -> snd (patchMap o p) = None ->
    get_path path p = Some v -> is_map v = false ->
    get_path path (fst (patchMap o p)) = Some v.
Proof.
  induction path as [|k rest IH]; intros o p v Hwf Hnone Hpath Hv;
    [discriminate|].
  destruct rest as [|k2 rest].
  - cbn [get_path] in *. unfold patchMap in *.
    rewrite (@patchMap_loop_get p p o o k v (loop_inv_start o p Hwf) Hnone Hpath).
    destruct (get k o) as [[ | | | | |ok]|]; try reflexivity.
    destruct v; try reflexivity. discriminate.
  - change (get_path (k :: k2 :: rest) p)
      with (match get k p with
            | Some (VMap sub) => get_path (k2 :: rest) sub
            | _ => None
            end) in Hpath.
    change (get_path (k :: k2 :: rest) (fst (patchMap o p)))
      with (match get k (fst (patchMap o p)) with
            | Some (VMap sub) => get_path (k2 :: rest) sub
            | _ => None
            end).
    destruct (get k p) as [[ | | | | |pm]|] eqn:Ep; try discriminate.
    unfold patchMap in Hnone |- * at 1.
    rewrite (@patchMap_loop_get p p o o k (VMap pm)
               (loop_inv_start o p Hwf) Hnone Ep).
    destruct (get k o) as [[ | | | | |ok]|] eqn:Eo; try exact Hpath.
    apply IH; auto.
    + exact (wf_get k p Hwf Ep).
    + eapply patchMap_nested_ok; eauto.
Qed.


(* ===================================================================== *)
(** ** Further facts about strings                                         *)
(* ===================================================================== *)

Lemma index_one_mem (a : ascii) (s : string) :
  mem a s = false <-> String.index 0 (String a "") s = None.
Proof.
  induction s as [|c s IH]; [split; reflexivity|].
  rewrite index_one_cons. cbn [mem].
  destruct (Ascii.eqb a c); cbn [orb]; [split; discriminate|].
  rewrite IH. destruct (String.index 0 (String a "") s); cbn; split;
    congruence.
Qed.

Lemma Split_no_mem (a : ascii) (s : string) :
  mem a s = false -> Split s a = [s].
Proof. intros H. apply Split_no_index. apply index_one_mem. exact H. Qed.

Lemma Split_app_sep (a : ascii) (s rest : string) :
  mem a s = false -> Split (s ++ String a rest) a = s :: Split rest a.
Proof.
  induction s as [|c s IH]; cbn [mem append Split].
  - intros _. rewrite Ascii.eqb_refl. reflexivity.
  - intros H. apply orb_false_iff in H. destruct H as [Hc Hs].
    rewrite (Ascii.eqb_sym c a), Hc, (IH Hs). reflexivity.
Qed.

Lemma mem_hd_Split (a : ascii) (s : string) :
  mem a (hd "" (Split s a)) = false.
Proof.
  induction s as [|c s IH]; [reflexivity|]. cbn [Split].
  destruct (Ascii.eqb c a) eqn:E; [reflexivity|].
  destruct (Split s a) as [|h t] eqn:Es; cbn [hd mem] in *.
  - rewrite Ascii.eqb_sym, E. reflexivity.
  - rewrite Ascii.eqb_sym, E, IH. reflexivity.
Qed.

Lemma Split_Join (a : ascii) (parts : list string) :
  parts <> [] ->
  (forall part, In part parts -> mem a part = false) ->
  Split (Join parts (String a "")) a = parts.
Proof.
  unfold Join. induction parts as [|x rest IH]; [congruence|].
  intros _ Hall. destruct rest as [|y rest].
  - cbn [String.concat]. apply Split_no_mem. apply Hall. left. reflexivity.
  - change (String.concat (String a "") (x :: y :: rest))
      with (x ++ String a (String.concat (String a "") (y :: rest))).
    rewrite Split_app_sep by (apply Hall; left; reflexivity).
    rewrite IH; [reflexivity|discriminate|].
    intros part Hin. apply Hall. right. exact Hin.
Qed.

Lemma length_app (s t : string) :
  String.length (s ++ t) = (String.length s + String.length t)%nat.
Proof. induction s as [|c s IH]; cbn; [reflexivity|rewrite IH; reflexivity]. Qed.

Lemma map_bytes_app (f : ascii -> ascii) (s t : string) :
  map_bytes f (s ++ t) = map_bytes f s ++ map_bytes f t.
Proof. induction s as [|c s IH]; cbn; [reflexivity|rewrite IH; reflexivity]. Qed.

Lemma mem_map_bytes (f : ascii -> ascii) (s : string) (c : ascii) :
  mem c (map_bytes f s) = true -> exists d, c = f d.
Proof.
  induction s as [|d s IH]; cbn [map_bytes mem]; [discriminate|].
  intros H. apply orb_true_iff in H. destruct H as [H|H]; [|auto].
  apply Ascii.eqb_eq in H. eauto.
Qed.

Lemma lower_byte_not_upper (d : ascii) : is_upper_byte (lower_byte d) = false.
Proof.
  unfold lower_byte, is_upper_byte.
  destruct ((65 <=? nat_of_ascii d)%nat && (nat_of_ascii d <=? 90)%nat) eqn:E.
  - apply andb_true_iff in E. destruct E as [E1 E2].
    apply Nat.leb_le in E1, E2.
    rewrite nat_ascii_embedding by lia.
    apply andb_false_iff. right. apply Nat.leb_gt. lia.
  - exact E.
Qed.

Lemma upper_byte_not_lower (d : ascii) : is_lower_byte (upper_byte d) = false.
Proof.
  unfold upper_byte, is_lower_byte.
  destruct ((97 <=? nat_of_ascii d)%nat && (nat_of_ascii d <=? 122)%nat) eqn:E.
  - apply andb_true_iff in E. destruct E as [E1 E2].
    apply Nat.leb_le in E1, E2.
    rewrite nat_ascii_embedding by lia.
    apply andb_false_iff. left. apply Nat.leb_gt. lia.
  - exact E.
Qed.

Lemma prefix_true_app (q s : string) :
  String.prefix q s = true -> exists r, s = q ++ r.
Proof.
  revert s. induction q as [|b q IH]; intros s; [exists s; reflexivity|].
  destruct s as [|c s]; [discriminate|].
  change (String.prefix (String b q) (String c s))
    with (if ascii_dec b c then String.prefix q s else false).
  destruct (ascii_dec b c) as [->|]; [|discriminate].
  intros H. destruct (IH s H) as [r ->]. exists r. reflexivity.
Qed.

(* ===================================================================== *)
(** ** Further facts about the environment scan                            *)
(* ===================================================================== *)

Lemma path_clear_MNil (path : list string) : path_clear path MNil = true.
Proof. destruct path as [|k [|k2 rest]]; reflexivity. Qed.

(** [parseEnvConfig] returns exactly on a clear path, and otherwise
    panics on the non-mapping it meets. *)
Lemma parseEnvConfig_clear (curCfg : cfgmap) (key value : string) :
  (path_clear (Split key "_") curCfg = true ->
   exists cfg, parseEnvConfig curCfg key value = Returns cfg)
  /\ (path_clear (Split key "_") curCfg = false ->
      exists found,
        parseEnvConfig curCfg key value = Panics (TypeAssertionFailed (Some found))
        /\ is_map found = false).
Proof.
  apply (parseEnvConfig_elim
    (fun curCfg key value res =>
       (path_clear (Split key "_") curCfg = true -> exists cfg, res = Returns cfg)
       /\ (path_clear (Split key "_") curCfg = false ->
           exists found,
             res = Panics (TypeAssertionFailed (Some found))
             /\ is_map found = false))).
  - intros c k e v _. apply Z.eqb_eq in e.
    rewrite (Split_no_sep "_" k e). cbn [path_clear].
    split; [eauto|discriminate].
  - intros c k Hi v IH _. cbv zeta in *. apply Z.eqb_neq in Hi.
    rewrite (Split_at_Index "_" k eq_refl Hi).
    set (thisKey := take (Z.to_nat (Index k "_")) k) in *.
    set (rest := drop (Z.to_nat (Index k "_" + 1)) k) in *.
    destruct (Split_cons rest "_") as (h & t & Hs). rewrite Hs in *.
    change (path_clear (thisKey :: h :: t) c)
      with (match get thisKey c with
            | None => true
            | Some (VMap sub) => path_clear (h :: t) sub
            | Some _ => false
            end).
    destruct (get thisKey c) as [found|] eqn:E.
    + rewrite E.
      destruct found as [ | | | | |sub];
        try (split; [discriminate|intros _; eexists; split; reflexivity]).
      destruct (IH (VMap sub) sub) as [IH1 IH2]. split.
      * intros Hc. destruct (IH1 Hc) as [cfg ->]. cbn [bind]. eauto.
      * intros Hc. destruct (IH2 Hc) as (f & -> & Hf). cbn [bind]. eauto.
    + rewrite get_set_eq. destruct (IH VNull MNil) as [IH1 _].
      split; [|discriminate]. intros _.
      destruct (IH1 (path_clear_MNil (h :: t))) as [cfg ->]. cbn [bind]. eauto.
Qed.

(** Setting the same key again is as if only the second call was made. *)
Lemma parseEnvConfig_again (curCfg : cfgmap) (key value : string) :
  forall cfg, parseEnvConfig curCfg key value = Returns cfg ->
  forall value', parseEnvConfig cfg key value' = parseEnvConfig curCfg key value'.
Proof.
  apply (parseEnvConfig_elim
    (fun curCfg key value res =>
       forall cfg, res = Returns cfg ->
       forall value', parseEnvConfig cfg key value' =
                      parseEnvConfig curCfg key value')).
  - intros c k e v _ cfg [= <-] v'. apply Z.eqb_eq in e.
    rewrite !parseEnvConfig_leaf by exact e. rewrite set_set. reflexivity.
  - intros c k Hi v IH _ cfg. cbv zeta in *. apply Z.eqb_neq in Hi.
    set (thisKey := take (Z.to_nat (Index k "_")) k) in *.
    set (rest := drop (Z.to_nat (Index k "_" + 1)) k) in *.
    set (c1 := match get thisKey c with Some _ => c | None => _ end) in *.
    destruct (get thisKey c1) as [[ | | | | |sub]|] eqn:E1; try discriminate.
    destruct (parseEnvConfig sub rest v) as [sub'|] eqn:E; cbn [bind];
      [|discriminate].
    intros [= <-] v'.
    rewrite !(parseEnvConfig_nested _ k v' Hi). cbv zeta.
    fold thisKey. fold rest. fold c1.
    rewrite !get_set_eq, E1.
    rewrite (IH (VMap sub) sub sub' E v').
    destruct (parseEnvConfig sub rest v'); cbn [bind]; [|reflexivity].
    rewrite set_set. reflexivity.
Qed.

Lemma parseEnvConfig_wf (curCfg : cfgmap) (key value : string) :
  wf_map curCfg ->
  forall cfg, parseEnvConfig curCfg key value = Returns cfg -> wf_map cfg.
Proof.
  apply (parseEnvConfig_elim
    (fun curCfg key value res =>
       wf_map curCfg -> forall cfg, res = Returns cfg -> wf_map cfg)).
  - intros c k e v _ Hwf cfg [= <-]. apply wf_set; [exact Hwf|].
    unfold coerceValue. destruct (Atoi v); [exact I|].
    destruct (ParseBool v); exact I.
  - intros c k Hi v IH _ Hwf cfg. cbv zeta in *.
    set (thisKey := take (Z.to_nat (Index k "_")) k) in *.
    set (rest := drop (Z.to_nat (Index k "_" + 1)) k) in *.
    set (c1 := match get thisKey c with Some _ => c | None => _ end) in *.
    assert (Hc1 : wf_map c1).
    { subst c1. destruct (get thisKey c); [exact Hwf|].
      apply wf_set; [exact Hwf|exact I]. }
    destruct (get thisKey c1) as [[ | | | | |sub]|] eqn:E1; try discriminate.
    destruct (parseEnvConfig sub rest v) as [sub'|] eqn:E; cbn [bind];
      [|discriminate].
    intros [= <-]. apply wf_set; [exact Hc1|].
    apply (IH (VMap sub) sub (wf_get thisKey c1 Hc1 E1) sub' E).
Qed.

Lemma scan_wf (prefix : string) (environ : list string) :
  forall envCfg cfg,
    wf_map envCfg -> scan prefix environ envCfg = Returns cfg -> wf_map cfg.
Proof.
  induction environ as [|v rest IH]; intros envCfg cfg Hwf; cbn [scan].
  - intros [= <-]. exact Hwf.
  - destruct (scanEntry prefix v envCfg) as [c1|] eqn:E; cbn [bind];
      [|discriminate].
    apply IH. unfold scanEntry in E.
    destruct (HasPrefix v prefix).
    + destruct (slice_from v (len (envName v) + 1)); [|discriminate].
      exact (parseEnvConfig_wf _ _ _ Hwf E).
    + injection E as <-. exact Hwf.
Qed.

Lemma scan_filter (prefix : string) (environ : list string) :
  forall envCfg,
    scan prefix (filter (fun v => HasPrefix v prefix) environ) envCfg
    = scan prefix environ envCfg.
Proof.
  induction environ as [|v rest IH]; intros envCfg; [reflexivity|].
  cbn [filter scan]. destruct (HasPrefix v prefix) eqn:E.
  - cbn [scan]. destruct (scanEntry prefix v envCfg); cbn [bind];
      [apply IH|reflexivity].
  - unfold scanEntry. rewrite E. cbn [bind]. apply IH.
Qed.

(* ===================================================================== *)
(** ** Further facts about the path deriver                                *)
(* ===================================================================== *)

(** Induction along a type expression, through the declarations its
    identifiers resolve to and the fields of its struct types. *)
Lemma ast_Expr_walk_ind (PE : ast.Expr -> Prop) (PF : ast.Field -> Prop)
    (PL : ast.FieldList -> Prop) :
  (forall n, PE (ast.Ident n None)) ->
  (forall n, PE (ast.Ident n (Some ast.OtherDecl))) ->
  (forall n tn t, PE t -> PE (ast.Ident n (Some (ast.TypeSpec tn t)))) ->
  (forall X, PE X -> PE (ast.StarExpr X)) ->
  (forall X Sel, PE X -> PE (ast.SelectorExpr X Sel)) ->
  (forall fl, PL fl -> PE (ast.StructType fl)) ->
  (forall e, PE e -> PE (ast.ArrayType e)) ->
  (forall k v, PE k -> PE v -> PE (ast.MapType k v)) ->
  (forall T, PE (ast.OtherExpr T)) ->
  (forall names t tag doc, PE t -> PF (ast.mkField names t tag doc)) ->
  PL ast.FNil ->
  (forall f rest, PF f -> PL rest -> PL (ast.FCons f rest)) ->
  forall e, PE e.
Proof.
  intros HNone HOther HSpec HStar HSel HStruct HArr HMap HOth HField HNil HCons.
  fix IHE 1. intros [n [[tn t|]|] | X | X Sel | fl | e | k v | T].
  - apply HSpec, IHE.
  - apply HOther.
  - apply HNone.
  - apply HStar, IHE.
  - apply HSel, IHE.
  - apply HStruct. revert fl. fix IHL 1.
    intros [|[names t tag doc] rest]; [apply HNil|].
    apply HCons; [apply HField, IHE|apply IHL].
  - apply HArr, IHE.
  - apply HMap; apply IHE.
  - apply HOth.
Qed.

Lemma ast_walk_ind (PE : ast.Expr -> Prop) (PF : ast.Field -> Prop)
    (PL : ast.FieldList -> Prop) :
  (forall n, PE (ast.Ident n None)) ->
  (forall n, PE (ast.Ident n (Some ast.OtherDecl))) ->
  (forall n tn t, PE t -> PE (ast.Ident n (Some (ast.TypeSpec tn t)))) ->
  (forall X, PE X -> PE (ast.StarExpr X)) ->
  (forall X Sel, PE X -> PE (ast.SelectorExpr X Sel)) ->
  (forall fl, PL fl -> PE (ast.StructType fl)) ->
  (forall e, PE e -> PE (ast.ArrayType e)) ->
  (forall k v, PE k -> PE v -> PE (ast.MapType k v)) ->
  (forall T, PE (ast.OtherExpr T)) ->
  (forall names t tag doc, PE t -> PF (ast.mkField names t tag doc)) ->
  PL ast.FNil ->
  (forall f rest, PF f -> PL rest -> PL (ast.FCons f rest)) ->
  (forall e, PE e) /\ (forall f, PF f) /\ (forall l, PL l).
Proof.
  intros HNone HOther HSpec HStar HSel HStruct HArr HMap HOth HField HNil HCons.
  assert (HE : forall e, PE e) by (eapply ast_Expr_walk_ind; eassumption).
  assert (HF : forall f, PF f) by (intros [names t tag doc]; apply HField, HE).
  repeat split; auto.
  fix IHL 1. intros [|f rest]; [exact HNil|].
  apply HCons; [apply HF|apply IHL].
Qed.

Lemma getYAMLTag_parts_returns (parts : list string) :
  exists s, getYAMLTag_parts parts = Returns s.
Proof.
  induction parts as [|tagPart rest IH]; cbn [getYAMLTag_parts]; [eauto|].
  destruct (HasPrefix tagPart "yaml:") eqn:E; [|exact IH].
  unfold HasPrefix in E. destruct (prefix_true_app _ _ E) as [r ->].
  change ("yaml:" ++ r) with ("yaml" ++ String ":" r).
  rewrite Split_app_sep by reflexivity.
  destruct (Split_cons r ":") as (h & t & ->). cbn [nth_error]. eauto.
Qed.

Lemma getYAMLTag_returns (tag : string) :
  exists s, getYAMLTag tag = Returns s.
Proof.
  unfold getYAMLTag. destruct (String.eqb tag ""); [eauto|].
  apply getYAMLTag_parts_returns.
Qed.

Lemma getYAMLTag_parts_no_comma (parts : list string) (s : string) :
  getYAMLTag_parts parts = Returns s -> mem "," s = false.
Proof.
  induction parts as [|tagPart rest IH]; cbn [getYAMLTag_parts].
  - intros [= <-]. reflexivity.
  - destruct (HasPrefix tagPart "yaml:"); [|exact IH].
    destruct (nth_error (Split tagPart ":") 1); [|discriminate].
    intros [= <-]. apply mem_hd_Split.
Qed.

(** The walk only appends to [vars]: what it adds does not depend on
    what [vars] held. *)
Lemma process_appends :
  (forall field chain vars,
     processStructFields field chain vars =
     new <- processStructFields field chain [] ;; Returns (vars ++ new)%list)
  /\ (forall f chain vars,
     processField f chain vars =
     new <- processField f chain [] ;; Returns (vars ++ new)%list)
  /\ (forall l chain vars,
     processFieldList l chain vars =
     new <- processFieldList l chain [] ;; Returns (vars ++ new)%list).
Proof.
  apply ast_walk_ind.
  - intros n chain vars. cbn [processStructFields].
    destruct (isPrimitiveType n); cbn [bind]; [reflexivity|].
    rewrite app_nil_r. reflexivity.
  - intros n chain vars. cbn [processStructFields].
    destruct (isPrimitiveType n); cbn [bind]; [reflexivity|].
    rewrite app_nil_r. reflexivity.
  - intros n tn t IH chain vars. cbn [processStructFields].
    destruct (isPrimitiveType n); cbn [bind]; [reflexivity|].
    destruct t; try (cbn [bind]; rewrite app_nil_r; reflexivity).
    apply (IH chain vars).
  - intros X IH chain vars. cbn [processStructFields].
    destruct (getTypeString X) as [typeStr|]; cbn [bind]; [|reflexivity].
    destruct (isPrimitiveType typeStr); [reflexivity|apply IH].
  - intros X Sel _ chain vars. reflexivity.
  - intros fl IH chain vars. apply (IH chain vars).
  - intros e _ chain vars. cbn. rewrite app_nil_r. reflexivity.
  - intros k v _ _ chain vars. cbn. rewrite app_nil_r. reflexivity.
  - intros T chain vars. cbn. rewrite app_nil_r. reflexivity.
  - intros names t tag doc IH chain vars. cbn [processField].
    destruct names as [|Name0 more]; [apply IH|].
    destruct tag as [TagValue|]; [|reflexivity].
    destruct (getYAMLTag TagValue) as [yamlTag|]; cbn [bind]; [|reflexivity].
    destruct (getTypeString t) as [typeStr|]; cbn [bind]; [|reflexivity].
    apply IH.
  - intros chain vars. cbn. rewrite app_nil_r. reflexivity.
  - intros f rest IHf IHrest chain vars. cbn [processFieldList].
    rewrite (IHf chain vars).
    destruct (processField f chain []) as [n1|]; cbn [bind]; [|reflexivity].
    rewrite (IHrest chain (vars ++ n1)%list), (IHrest chain n1).
    destruct (processFieldList rest chain []) as [n2|]; cbn [bind];
      [|reflexivity].
    rewrite app_assoc. reflexivity.
Qed.

(** Every variable the walk adds has a chain that extends the chain the
    walk was given. *)
Lemma process_extends_chain :
  (forall field chain vars vars',
     processStructFields field chain vars = Returns vars' ->
     forall e, In e vars' ->
     In e vars \/ exists suffix, Chain e = (chain ++ suffix)%list)
  /\ (forall f chain vars vars',
     processField f chain vars = Returns vars' ->
     forall e, In e vars' ->
     In e vars \/ exists suffix, Chain e = (chain ++ suffix)%list)
  /\ (forall l chain vars vars',
     processFieldList l chain vars = Returns vars' ->
     forall e, In e vars' ->
     In e vars \/ exists suffix, Chain e = (chain ++ suffix)%list).
Proof.
  assert (Hemit : forall chain vars vars',
            Returns (vars ++ [mkEnvVar chain])%list = Returns vars' ->
            forall e, In e vars' ->
            In e vars \/ exists suffix, Chain e = (chain ++ suffix)%list).
  { intros chain vars vars' [= <-] e Hin. apply in_app_or in Hin.
    destruct Hin as [Hin|[<-|[]]]; [left; exact Hin|].
    right. exists []. cbn. rewrite app_nil_r. reflexivity. }
  assert (Hsame : forall (chain : list Field) (vars vars' : list EnvVar),
            Returns vars = Returns vars' ->
            forall e, In e vars' ->
            In e vars \/ exists suffix, Chain e = (chain ++ suffix)%list).
  { intros chain vars vars' [= <-] e Hin. left. exact Hin. }
  apply ast_walk_ind.
  - intros n chain vars vars'. cbn [processStructFields].
    destruct (isPrimitiveType n); [apply Hemit|apply Hsame].
  - intros n chain vars vars'. cbn [processStructFields].
    destruct (isPrimitiveType n); [apply Hemit|apply Hsame].
  - intros n tn t IH chain vars vars'. cbn [processStructFields].
    destruct (isPrimitiveType n); [apply Hemit|].
    destruct t; try apply Hsame. apply (IH chain vars vars').
  - intros X IH chain vars vars'. cbn [processStructFields].
    destruct (getTypeString X) as [typeStr|]; cbn [bind]; [|discriminate].
    destruct (isPrimitiveType typeStr); [apply Hemit|apply IH].
  - intros X Sel _ chain vars vars'. apply Hemit.
  - intros fl IH chain vars vars'. apply (IH chain vars vars').
  - intros e _ chain vars vars'. apply Hsame.
  - intros k v _ _ chain vars vars'. apply Hsame.
  - intros T chain vars vars'. apply Hsame.
  - intros names t tag doc IH chain vars vars'. cbn [processField].
    destruct names as [|Name0 more]; [apply IH|].
    destruct tag as [TagValue|]; [|discriminate].
    destruct (getYAMLTag TagValue) as [yamlTag|]; cbn [bind]; [|discriminate].
    destruct (getTypeString t) as [typeStr|]; cbn [bind]; [|discriminate].
    intros H e Hin. destruct (IH _ _ _ H e Hin) as [Hold|[suffix Hs]];
      [left; exact Hold|].
    right. rewrite <- app_assoc in Hs. eauto.
  - intros chain vars vars'. apply Hsame.
  - intros f rest IHf IHrest chain vars vars'. cbn [processFieldList].
    destruct (processField f chain vars) as [v1|] eqn:E1; cbn [bind];
      [|discriminate].
    intros H e Hin. destruct (IHrest _ _ _ H e Hin) as [Hin1|Hs];
      [|right; exact Hs].
    exact (IHf _ _ _ E1 e Hin1).
Qed.

Lemma getTypeString_stars (n : nat) (name : string) (obj : option ast.Decl) :
  exists s, getTypeString (stars n (ast.Ident name obj)) = Returns s.
Proof.
  induction n as [|n [s IH]]; cbn [stars getTypeString]; [eauto|].
  rewrite IH. cbn [bind]. eauto.
Qed.

Lemma process_stars (n : nat) (name : string) (obj : option ast.Decl)
    (chain : list Field) (vars : list EnvVar) :
  isPrimitiveType name = true ->
  processStructFields (stars n (ast.Ident name obj)) chain vars
  = Returns (vars ++ [mkEnvVar chain])%list.
Proof.
  intros Hprim. induction n as [|n IH]; cbn [stars processStructFields].
  - rewrite Hprim. reflexivity.
  - destruct (getTypeString_stars n name obj) as [s ->]. cbn [bind].
    destruct (isPrimitiveType s); [reflexivity|exact IH].
Qed.

Lemma process_flat_fields (fs : list ast.Field) :
  forallb flat_field fs = true ->
  forall chain vars,
  exists new,
    processFieldList (ast.fields fs) chain vars = Returns (vars ++ new)%list
    /\ map (fun e => map Type_ (Chain e)) new
       = map (fun f => (map Type_ chain ++ [flat_type f])%list) fs.
Proof.
  induction fs as [|f rest IH]; intros Hflat chain vars.
  - exists []. cbn. rewrite app_nil_r. auto.
  - cbn [forallb] in Hflat. apply andb_true_iff in Hflat.
    destruct Hflat as [Hf Hrest].
    destruct f as [names t tag doc]. cbn [flat_field] in Hf.
    destruct names as [|Name0 more]; [discriminate|].
    destruct t as [tname obj| | | | | |]; try discriminate.
    destruct tag as [TagValue|]; [|discriminate].
    cbn [ast.fields processFieldList processField].
    destruct (getYAMLTag_returns TagValue) as [yamlTag ->].
    cbn [bind getTypeString processStructFields]. rewrite Hf. cbn [bind].
    destruct (IH Hrest chain
                (vars ++ [mkEnvVar (chain ++
                   [mkField (if String.eqb yamlTag "" then ToLower Name0
                             else yamlTag) tname (fieldComment doc)])])%list)
      as (new & -> & Hnew).
    eexists (_ :: new). split.
    + rewrite <- app_assoc. reflexivity.
    + cbn [map Chain flat_type]. rewrite Hnew, map_app. reflexivity.
Qed.

(* ===================================================================== *)
(** ** Facts about trimming and slicing                                    *)
(* ===================================================================== *)

Lemma string_app_assoc (s t u : string) : s ++ t ++ u = (s ++ t) ++ u.
Proof. induction s as [|c s IH]; cbn [append]; [reflexivity|rewrite IH; reflexivity]. Qed.

Lemma mem_app (c : ascii) (s t : string) :
  mem c (s ++ t) = mem c s || mem c t.
Proof.
  induction s as [|d s IH]; cbn [append mem]; [reflexivity|].
  rewrite IH, orb_assoc. reflexivity.
Qed.

Lemma avoids_mem (s cutset : string) (c : ascii) :
  avoids s cutset = true -> mem c cutset = true -> mem c s = false.
Proof.
  induction s as [|d s IH]; cbn [avoids mem]; [reflexivity|].
  intros H Hc. apply andb_true_iff in H. destruct H as [Hd Hs].
  rewrite (IH Hs Hc), orb_false_r.
  destruct (Ascii.eqb c d) eqn:E; [|reflexivity].
  apply Ascii.eqb_eq in E. subst d. rewrite Hc in Hd. discriminate.
Qed.

Lemma avoids_app (s t cutset : string) :
  avoids (s ++ t) cutset = avoids s cutset && avoids t cutset.
Proof.
  induction s as [|d s IH]; cbn [append avoids]; [reflexivity|].
  rewrite IH, andb_assoc. reflexivity.
Qed.

Lemma TrimRight_one_clean (a : ascii) (s : string) :
  mem a s = false -> TrimRight s (String a "") = s.
Proof.
  induction s as [|c s IH]; cbn [mem TrimRight]; [reflexivity|].
  intros H. apply orb_false_iff in H. destruct H as [Hc Hs].
  rewrite (IH Hs). rewrite (Ascii.eqb_sym c a), Hc.
  destruct s; reflexivity.
Qed.

Lemma TrimRight_one_last (a : ascii) (s : string) :
  TrimRight (s ++ String a "") (String a "") = TrimRight s (String a "").
Proof.
  induction s as [|c s IH]; cbn [append TrimRight mem].
  - rewrite Ascii.eqb_refl. reflexivity.
  - rewrite IH. reflexivity.
Qed.

Lemma TrimLeft_one_first (a : ascii) (s : string) :
  TrimLeft (String a s) (String a "") = TrimLeft s (String a "").
Proof. cbn [TrimLeft mem]. rewrite Ascii.eqb_refl. reflexivity. Qed.

Lemma TrimLeft_one_clean (a : ascii) (s : string) :
  mem a s = false -> TrimLeft s (String a "") = s.
Proof.
  destruct s as [|c s]; cbn [mem TrimLeft]; [reflexivity|].
  intros H. apply orb_false_iff in H. destruct H as [Hc _].
  rewrite (Ascii.eqb_sym c a), Hc. reflexivity.
Qed.

(** Trimming [a] off a text that avoids [a] and is wrapped in one [a] on
    each side gives the text back. *)
Lemma Trim_wrapped (a : ascii) (s : string) :
  mem a s = false -> Trim (String a (s ++ String a "")) (String a "") = s.
Proof.
  intros H. unfold Trim. rewrite TrimLeft_one_first.
  destruct s as [|c s].
  - cbn. rewrite Ascii.eqb_refl. reflexivity.
  - cbn [mem] in H. apply orb_false_iff in H. destruct H as [Hc Hs].
    cbn [append TrimLeft mem]. rewrite (Ascii.eqb_sym c a), Hc. cbn [orb].
    change (String c (s ++ String a "")) with (String c s ++ String a "").
    rewrite TrimRight_one_last. apply TrimRight_one_clean.
    cbn [mem]. rewrite Hc, Hs. reflexivity.
Qed.

Lemma index_app_sep (a : ascii) (s rest : string) :
  mem a s = false ->
  String.index 0 (String a "") (s ++ String a rest) = Some (String.length s).
Proof.
  induction s as [|c s IH]; cbn [mem append String.length].
  - intros _. rewrite index_one_cons, Ascii.eqb_refl. reflexivity.
  - intros H. apply orb_false_iff in H. destruct H as [Hc Hs].
    rewrite index_one_cons, Hc, (IH Hs). reflexivity.
Qed.

Lemma take_app (s t : string) : take (String.length s) (s ++ t) = s.
Proof.
  induction s as [|c s IH]; cbn [String.length append take].
  - destruct t; reflexivity.
  - rewrite IH. reflexivity.
Qed.

Lemma drop_app_sep (a : ascii) (s rest : string) :
  drop (S (String.length s)) (s ++ String a rest) = rest.
Proof. induction s as [|c s IH]; [reflexivity|exact IH]. Qed.

Lemma Index_app_sep (a : ascii) (s rest : string) :
  mem a s = false ->
  Index (s ++ String a rest) (String a "") = Z.of_nat (String.length s).
Proof. intros H. unfold Index. rewrite index_app_sep by exact H. reflexivity. Qed.

Lemma getYAMLTag_text (content : string) :
  avoids content tag_delimiters = true ->
  getYAMLTag (yaml_tag_text content) = Returns (hd "" (Split content ",")).
Proof.
  intros Hc.
  assert (Hsp : mem " " content = false) by (apply (avoids_mem _ _ _ Hc); reflexivity).
  assert (Hco : mem ":" content = false) by (apply (avoids_mem _ _ _ Hc); reflexivity).
  assert (Hq : mem "034" content = false) by (apply (avoids_mem _ _ _ Hc); reflexivity).
  assert (Hb : mem "096" content = false) by (apply (avoids_mem _ _ _ Hc); reflexivity).
  unfold getYAMLTag, yaml_tag_text.
  change (String.eqb (backquote ++ "yaml:" ++ quote ++ content ++ quote ++ backquote) "")
    with false. cbv iota.
  set (X := "yaml:" ++ quote ++ content ++ quote).
  assert (HX : backquote ++ "yaml:" ++ quote ++ content ++ quote ++ backquote
               = String "096" (X ++ String "096" "")).
  { unfold X, backquote, quote. cbn [append]. do 7 f_equal.
    exact (string_app_assoc content (String "034" "") (String "096" "")). }
  rewrite HX. unfold backquote at 1.
  rewrite Trim_wrapped.
  2:{ unfold X, quote. rewrite !mem_app, Hb. reflexivity. }
  rewrite (Split_no_mem " " X).
  2:{ unfold X, quote. rewrite !mem_app, Hsp. reflexivity. }
  cbn [getYAMLTag_parts].
  assert (Hpre : HasPrefix X "yaml:" = true) by (apply prefix_app).
  rewrite Hpre.
  change X with ("yaml" ++ String ":" (quote ++ content ++ quote)).
  rewrite Split_app_sep by reflexivity.
  rewrite (Split_no_mem ":" (quote ++ content ++ quote)).
  2:{ unfold quote. rewrite !mem_app, Hco. reflexivity. }
  cbn [nth_error].
  change (quote ++ content ++ quote) with (String "034" (content ++ String "034" "")).
  unfold quote at 1. rewrite Trim_wrapped by exact Hq. reflexivity.
Qed.

(* ===================================================================== *)
(** ** Further properties of the merge                                     *)
(* ===================================================================== *)

(** X1. For an overlay that holds each key once, [patchMap] returns no
    error exactly when the two mappings have no subtree/scalar conflict,
    at any depth. *)
Theorem patchMap_succeeds_iff_no_conflict (o p : cfgmap) :
  wf_map p ->
  (snd (patchMap o p) = None <-> forall k' p', ~ conflict o p k' p').
Proof.
  intros Hwf. split.
  - intros Hnone k' p' Hc. exact (patchMap_complete Hc Hwf Hnone).
  - intros Hno. destruct (snd (patchMap o p)) as [e|] eqn:E; [|reflexivity].
    destruct (@patchMap_loop_sound p p o o e (loop_inv_start o p Hwf) E)
      as (k' & p' & _ & Hc).
    exfalso. exact (Hno k' p' Hc).
Qed.

Lemma patchMap_succeeds_iff_no_conflict_witness :
  let o := of_list [("a", VMap (of_list [("b", VInt 1)]))] in
  let p := of_list [("a", VMap (of_list [("b", VInt 2)])); ("c", VBool true)] in
  wf_map p /\ forall k' p', ~ conflict o p k' p'.
Proof.
  intros o p.
  assert (Hwf : wf_map p).
  { cbn. repeat split; auto; intros [H|[]]; discriminate H. }
  split; [exact Hwf|].
  apply (proj1 (@patchMap_succeeds_iff_no_conflict o p Hwf)). reflexivity.
Defined.

(** X2. A key the overlay does not hold keeps the value the base had,
    whether the merge succeeds or fails. *)
Theorem patchMap_untouched_key (o p : cfgmap) (k : string) :
  ~ In k (keys p) -> get k (fst (patchMap o p)) = get k o.
Proof. intros Hk. unfold patchMap. apply patchMap_loop_other. exact Hk. Qed.

Lemma patchMap_untouched_key_witness :
  let o := of_list [("port", VInt 80); ("a", VMap MNil)] in
  let p := of_list [("a", VInt 5); ("host", VStr "db")] in
  ~ In "port" (keys p) /\ get "port" (fst (patchMap o p)) = Some (VInt 80).
Proof.
  intros o p.
  assert (Hk : ~ In "port" (keys p)).
  { cbn. intros [H|[H|[]]]; discriminate H. }
  split; [exact Hk|]. exact (@patchMap_untouched_key o p "port" Hk).
Defined.

(** X3. The merge never removes an entry of the base, and an entry that
    was a mapping is still a mapping afterwards, whether the merge
    succeeds or fails. *)
Theorem patchMap_never_drops (o p : cfgmap) (k : string) (v : any) :
  get k o = Some v ->
  exists v', get k (fst (patchMap o p)) = Some v'
             /\ (is_map v = true -> is_map v' = true).
Proof. intros H. unfold patchMap. apply patchMap_loop_keeps. exact H. Qed.

Lemma patchMap_never_drops_witness :
  let o := of_list [("a", VMap (of_list [("b", VInt 1)]))] in
  let p := of_list [("a", VStr "x")] in
  get "a" o = Some (VMap (of_list [("b", VInt 1)]))
  /\ exists v', get "a" (fst (patchMap o p)) = Some v'
                /\ (true = true -> is_map v' = true).
Proof.
  intros o p. split; [reflexivity|].
  exact (@patchMap_never_drops o p "a" (VMap (of_list [("b", VInt 1)])) eq_refl).
Defined.

(** X4. When the merge returns no error, every leaf of the overlay (a
    non-mapping at the end of a path through nested mappings) is found at
    the same path in the merged mapping: the overlay wins at any depth. *)
Theorem patchMap_leaf_precedence (o p : cfgmap) (path : list string) (v : any) :
  wf_map p -> snd (patchMap o p) = None ->
  get_path path p = Some v -> is_map v = false ->
  get_path path (fst (patchMap o p)) = Some v.
Proof. intros. apply patchMap_leaf_at_path; assumption. Qed.

Lemma patchMap_leaf_precedence_witness :
  let o := of_list [("pg", VMap (of_list [("host", VStr "file"); ("port", VInt 1)]))] in
  let p := of_list [("pg", VMap (of_list [("host", VStr "env")]))] in
  wf_map p /\ snd (patchMap o p) = None
  /\ get_path ["pg"; "host"] (fst (patchMap o p)) = Some (VStr "env").
Proof.
  intros o p.
  assert (Hwf : wf_map p).
  { cbn. repeat split; auto; intros []. }
  split; [exact Hwf|]. split; [reflexivity|].
  exact (@patchMap_leaf_precedence o p ["pg"; "host"] (VStr "env")
           Hwf eq_refl eq_refl eq_refl).
Defined.



(** X6. When the merge returns no error and both sides hold a mapping at
    a key, the merged entry at that key is the merge of the two nested
    mappings, which itself returned no error. *)
Theorem patchMap_merges_subtrees (o p : cfgmap) (k : string) (ok pm : cfgmap) :
  wf_map p -> snd (patchMap o p) = None ->
  get k o = Some (VMap ok) -> get k p = Some (VMap pm) ->
  get k (fst (patchMap o p)) = Some (VMap (fst (patchMap ok pm)))
  /\ snd (patchMap ok pm) = None.
Proof.
  intros Hwf Hnone Ho Hp. split.
  - unfold patchMap at 1.
    rewrite (@patchMap_loop_get p p o o k (VMap pm)
               (loop_inv_start o p Hwf) Hnone Hp).
    rewrite Ho. reflexivity.
  - eapply patchMap_nested_ok; eauto.
Qed.

Lemma patchMap_merges_subtrees_witness :
  let ok := of_list [("host", VStr "file"); ("port", VInt 1)] in
  let pm := of_list [("port", VInt 2)] in
  let o := of_list [("pg", VMap ok)] in
  let p := of_list [("pg", VMap pm)] in
  wf_map p
  /\ get "pg" (fst (patchMap o p)) = Some (VMap (fst (patchMap ok pm)))
  /\ snd (patchMap ok pm) = None.
Proof.
  intros ok pm o p.
  assert (Hwf : wf_map p) by (cbn; repeat split; auto; intros []).
  split; [exact Hwf|].
  exact (@patchMap_merges_subtrees o p "pg" ok pm Hwf eq_refl eq_refl eq_refl).
Defined.

(* ===================================================================== *)
(** ** Further properties of the environment scan                          *)
(* ===================================================================== *)

(** X7. [parseEnvConfig] returns exactly when the path of the key is
    clear in the current mapping (no segment before the last meets a
    non-mapping); otherwise it panics on the type assertion, on the
    non-mapping it met. *)
Theorem parseEnvConfig_returns_iff_clear (curCfg : cfgmap) (key value : string) :
  (path_clear (Split key "_") curCfg = true
   /\ exists cfg, parseEnvConfig curCfg key value = Returns cfg)
  \/ (path_clear (Split key "_") curCfg = false
      /\ exists found,
           parseEnvConfig curCfg key value
           = Panics (TypeAssertionFailed (Some found))
           /\ is_map found = false).
Proof.
  destruct (parseEnvConfig_clear curCfg key value) as [H1 H2].
  destruct (path_clear (Split key "_") curCfg); [left|right]; auto.
Qed.

(** X8. Setting a key that was just set: the result is the one of the
    second call alone, so of two variables with the same key the later
    value wins. *)
Theorem parseEnvConfig_last_value_wins (curCfg cfg : cfgmap)
    (key value value' : string) :
  parseEnvConfig curCfg key value = Returns cfg ->
  parseEnvConfig cfg key value' = parseEnvConfig curCfg key value'.
Proof. intros H. exact (parseEnvConfig_again curCfg key value H value'). Qed.

Lemma parseEnvConfig_last_value_wins_witness :
  let cfg := of_list [("pg", VMap (of_list [("port", VInt 1)]))] in
  parseEnvConfig MNil "pg_port" "1" = Returns cfg
  /\ parseEnvConfig cfg "pg_port" "5432" = parseEnvConfig MNil "pg_port" "5432".
Proof.
  intros cfg. split; [reflexivity|].
  exact (@parseEnvConfig_last_value_wins MNil cfg "pg_port" "1" "5432" eq_refl).
Defined.



(** X10. Entries of the environment that do not start with the prefix
    have no effect on the scan: scanning only the entries that start
    with it gives the same outcome. *)
Theorem readFromConfigEnv_ignores_other_entries (Environ : list string)
    (prefix : string) :
  readFromConfigEnv (filter (fun v => HasPrefix v prefix) Environ) prefix
  = readFromConfigEnv Environ prefix.
Proof. unfold readFromConfigEnv. apply scan_filter. Qed.

(** X11. For an entry NAME=VALUE whose name holds no [=], the value
    handed to [parseEnvConfig] is all the text after the first [=]
    (later [=] signs included) and the key is made from the name. *)
Theorem scanEntry_splits_at_first_equals (prefix name value : string)
    (envCfg : cfgmap) :
  mem "=" name = false ->
  scanEntry prefix (name ++ "=" ++ value) envCfg =
  if HasPrefix (name ++ "=" ++ value) prefix
  then parseEnvConfig envCfg (envKey prefix name) value
  else Returns envCfg.
Proof.
  intros Hname. unfold scanEntry, envName.
  destruct (HasPrefix (name ++ "=" ++ value) prefix); [|reflexivity].
  change (name ++ "=" ++ value) with (name ++ String "=" value).
  rewrite Split_app_sep by exact Hname. cbn [hd].
  unfold slice_from, len.
  rewrite length_app. cbn [String.length].
  replace ((0 <=? Z.of_nat (String.length name) + 1)
           && (Z.of_nat (String.length name) + 1
               <=? Z.of_nat (String.length name + S (String.length value))))
    with true.
  2:{ symmetry. apply andb_true_iff. split; apply Z.leb_le; lia. }
  replace (Z.to_nat (Z.of_nat (String.length name) + 1))
    with (S (String.length name)) by lia.
  rewrite drop_app_sep. reflexivity.
Qed.

Lemma scanEntry_splits_at_first_equals_witness :
  mem "=" "CFG_DSN" = false
  /\ scanEntry "CFG_" "CFG_DSN=host=db port=5432" MNil
     = Returns (of_list [("dsn", VStr "host=db port=5432")]).
Proof.
  split; [reflexivity|].
  exact (@scanEntry_splits_at_first_equals "CFG_" "CFG_DSN"
           "host=db port=5432" MNil eq_refl).
Defined.

(** X12. An entry that starts with the prefix and holds no [=] makes the
    scan panic: the slice [v[len(key)+1:]] starts past the end of [v]. *)
Theorem scanEntry_without_equals_panics (prefix v : string) (envCfg : cfgmap) :
  mem "=" v = false -> HasPrefix v prefix = true ->
  scanEntry prefix v envCfg = Panics (SliceOutOfRange v (len v + 1)).
Proof.
  intros Hv Hp. unfold scanEntry, envName. rewrite Hp.
  rewrite Split_no_mem by exact Hv. cbn [hd].
  unfold slice_from.
  replace ((0 <=? len v + 1) && (len v + 1 <=? len v)) with false;
    [reflexivity|].
  symmetry. apply andb_false_iff. right. apply Z.leb_gt. lia.
Qed.

Lemma scanEntry_without_equals_panics_witness :
  mem "=" "CFG_DEBUG" = false /\ HasPrefix "CFG_DEBUG" "CFG" = true
  /\ scanEntry "CFG" "CFG_DEBUG" MNil = Panics (SliceOutOfRange "CFG_DEBUG" 10).
Proof.
  split; [reflexivity|]. split; [reflexivity|].
  exact (@scanEntry_without_equals_panics "CFG" "CFG_DEBUG" MNil eq_refl eq_refl).
Defined.

(** X13. The key made from a variable's name holds no upper-case ASCII
    letter, whatever the prefix and the name; so no variable sets a key
    written in camel case such as authorizedKey. *)
Theorem envKey_never_upper_case (prefix name : string) :
  (forall c, mem c (envKey prefix name) && is_upper_byte c = false)
  /\ envKey prefix name <> "authorizedKey".
Proof.
  assert (H : forall c, mem c (envKey prefix name) && is_upper_byte c = false).
  { intros c. destruct (mem c (envKey prefix name)) eqn:E; [|reflexivity].
    unfold envKey, ToLower in E.
    destruct (mem_map_bytes _ _ _ E) as [d ->].
    apply lower_byte_not_upper. }
  split; [exact H|].
  intros Heq. specialize (H "K"%char). rewrite Heq in H. discriminate H.
Qed.

(** X14. A call of [parseEnvConfig] that returns leaves every top-level
    entry other than the first segment of its key as it was. *)
Theorem parseEnvConfig_keeps_other_entries (curCfg cfg : cfgmap)
    (key value k : string) :
  parseEnvConfig curCfg key value = Returns cfg ->
  k <> hd "" (Split key "_") ->
  get k cfg = get k curCfg.
Proof.
  destruct (Z.eq_dec (Index key "_") (-1)) as [Hi|Hi].
  - rewrite (parseEnvConfig_leaf curCfg key value Hi).
    rewrite (Split_no_sep "_" key Hi). cbn [hd].
    intros [= <-] Hk. apply get_set_ne. exact Hk.
  - rewrite (parseEnvConfig_nested curCfg key value Hi). cbv zeta.
    rewrite (Split_at_Index "_" key eq_refl Hi). cbn [hd].
    set (thisKey := take (Z.to_nat (Index key "_")) key).
    set (rest := drop (Z.to_nat (Index key "_" + 1)) key).
    set (c1 := match get thisKey curCfg with Some _ => curCfg | None => _ end).
    intros H Hk.
    assert (Hc1 : get k c1 = get k curCfg).
    { subst c1. destruct (get thisKey curCfg); [reflexivity|].
      apply get_set_ne. exact Hk. }
    destruct (get thisKey c1) as [[ | | | | |sub]|]; try discriminate.
    destruct (parseEnvConfig sub rest value) as [sub'|]; cbn [bind] in H;
      [|discriminate].
    injection H as <-. rewrite get_set_ne by exact Hk. exact Hc1.
Qed.

Lemma parseEnvConfig_keeps_other_entries_witness :
  let curCfg := of_list [("port", VInt 80)] in
  exists cfg,
    parseEnvConfig curCfg "pg_host" "db" = Returns cfg
    /\ "port" <> hd "" (Split "pg_host" "_")
    /\ get "port" cfg = Some (VInt 80).
Proof.
  intros curCfg. eexists. split; [vm_compute; reflexivity|].
  assert (Hk : "port" <> hd "" (Split "pg_host" "_")) by (cbn; discriminate).
  split; [exact Hk|].
  exact (@parseEnvConfig_keeps_other_entries curCfg _ "pg_host" "db" "port"
           eq_refl Hk).
Defined.

(** X15. A path of segments that hold no underscore, joined by
    underscores, is the key that sets exactly that path: on a fresh
    overlay the call returns and the coerced value is found at the
    path. *)
Theorem parseEnvConfig_sets_joined_path (path : list string) (value : string) :
  path <> [] ->
  (forall seg, In seg path -> mem "_" seg = false) ->
  exists cfg,
    parseEnvConfig MNil (Join path "_") value = Returns cfg
    /\ get_path path cfg = Some (coerceValue value).
Proof.
  intros Hne Hsegs.
  destruct (@parseEnvConfig_fresh MNil (Join path "_") value eq_refl)
    as [cfg Hcfg].
  exists cfg. split; [exact Hcfg|].
  rewrite <- (Split_Join "_" Hne Hsegs) at 1.
  exact (parseEnvConfig_path MNil (Join path "_") value Hcfg).
Qed.

Lemma parseEnvConfig_sets_joined_path_witness :
  exists cfg,
    parseEnvConfig MNil "mgmt_log_level" "INFO" = Returns cfg
    /\ get_path ["mgmt"; "log"; "level"] cfg = Some (VStr "INFO").
Proof.
  apply (@parseEnvConfig_sets_joined_path ["mgmt"; "log"; "level"] "INFO").
  - discriminate.
  - intros seg [<-|[<-|[<-|[]]]]; reflexivity.
Defined.

(** X16. The order of two variables matters when one key is the first
    segment of the other: the nested one first and the scalar second, the
    scalar silently replaces the whole subtree; the scalar first and the
    nested one second, the call panics on the scalar. *)
Theorem parseEnvConfig_order_matters (k rest v1 v2 : string) :
  mem "_" k = false ->
  (cfg1 <- parseEnvConfig MNil (k ++ "_" ++ rest) v1 ;;
   parseEnvConfig cfg1 k v2)
  = Returns (MCons k (coerceValue v2) MNil)
  /\ (cfg1 <- parseEnvConfig MNil k v2 ;;
      parseEnvConfig cfg1 (k ++ "_" ++ rest) v1)
     = Panics (TypeAssertionFailed (Some (coerceValue v2))).
Proof.
  intros Hk.
  assert (Hleaf : Index k "_" = -1).
  { unfold Index. apply index_one_mem in Hk. rewrite Hk. reflexivity. }
  assert (Hidx : Index (k ++ "_" ++ rest) "_" = Z.of_nat (String.length k)).
  { exact (Index_app_sep "_" k rest Hk). }
  assert (Hnest : Index (k ++ "_" ++ rest) "_" <> -1) by lia.
  assert (Htake : take (Z.to_nat (Index (k ++ "_" ++ rest) "_")) (k ++ "_" ++ rest) = k).
  { rewrite Hidx, Nat2Z.id. apply take_app. }
  assert (Hscalar : is_map (coerceValue v2) = false).
  { unfold coerceValue. destruct (Atoi v2); [reflexivity|].
    destruct (ParseBool v2); reflexivity. }
  split.
  - rewrite (parseEnvConfig_nested MNil (k ++ "_" ++ rest) v1 Hnest). cbv zeta.
    rewrite Htake. cbn [get set]. rewrite String.eqb_refl.
    destruct (parseEnvConfig MNil _ v1) as [sub'|] eqn:E.
    + cbn [bind].
      rewrite (parseEnvConfig_leaf _ k v2 Hleaf). cbn [set].
      rewrite String.eqb_refl. reflexivity.
    + destruct (@parseEnvConfig_fresh MNil
                  (drop (Z.to_nat (Index (k ++ "_" ++ rest) "_" + 1))
                     (k ++ "_" ++ rest)) v1 eq_refl) as [c Hc].
      rewrite Hc in E. discriminate.
  - rewrite (parseEnvConfig_leaf MNil k v2 Hleaf). cbn [bind set].
    rewrite (parseEnvConfig_nested _ (k ++ "_" ++ rest) v1 Hnest). cbv zeta.
    rewrite Htake. cbn [get]. rewrite String.eqb_refl. cbn [get].
    rewrite String.eqb_refl.
    destruct (coerceValue v2); try reflexivity. discriminate.
Qed.

Lemma parseEnvConfig_order_matters_witness :
  mem "_" "a" = false
  /\ (cfg1 <- parseEnvConfig MNil "a_b" "2" ;; parseEnvConfig cfg1 "a" "1")
     = Returns (of_list [("a", VInt 1)])
  /\ (cfg1 <- parseEnvConfig MNil "a" "1" ;; parseEnvConfig cfg1 "a_b" "2")
     = Panics (TypeAssertionFailed (Some (VInt 1))).
Proof.
  split; [reflexivity|].
  exact (@parseEnvConfig_order_matters "a" "b" "2" "1" eq_refl).
Defined.

(** X17. When the loader returns a mapping for a file that could be read,
    the scan returned an overlay, and every leaf of that overlay is found
    at the same path in the returned mapping. *)
Theorem loader_overlay_leaves_win (Environ : list string)
    (readFromConfigFile : string -> cfgmap + error)
    (prefix configPath : string) (merged : cfgmap) :
  readConfigFromPathAndEnv Environ readFromConfigFile prefix configPath
  = Returns (inl merged) ->
  exists overlay,
    readFromConfigEnv Environ prefix = Returns overlay
    /\ forall path v,
         get_path path overlay = Some v -> is_map v = false ->
         get_path path merged = Some v.
Proof.
  unfold readConfigFromPathAndEnv.
  destruct (if len configPath =? 0 then inl MNil
            else readFromConfigFile configPath) as [config|err];
    [|discriminate].
  destruct (readFromConfigEnv Environ prefix) as [overlay|] eqn:Eenv;
    cbn [bind]; [|discriminate].
  unfold patchConfigMap.
  destruct (patchMap config overlay) as [config' [err|]] eqn:Em;
    [discriminate|].
  intros [= <-]. exists overlay. split; [reflexivity|].
  intros path v Hpath Hv.
  assert (Hwf : wf_map overlay).
  { unfold readFromConfigEnv in Eenv. exact (scan_wf prefix Environ MNil I Eenv). }
  change config' with (fst (config', @None error)). rewrite <- Em.
  apply patchMap_leaf_at_path; auto. rewrite Em. reflexivity.
Qed.

Lemma loader_overlay_leaves_win_witness :
  let Environ := ["CFG_PG_HOST=env"; "PATH=/bin"] in
  let file := of_list [("pg", VMap (of_list [("host", VStr "file"); ("port", VInt 5432)]))] in
  exists merged overlay,
    readConfigFromPathAndEnv Environ (fun _ => inl file) "CFG_" "conf.yaml"
    = Returns (inl merged)
    /\ readFromConfigEnv Environ "CFG_" = Returns overlay
    /\ forall path v,
         get_path path overlay = Some v -> is_map v = false ->
         get_path path merged = Some v.
Proof.
  intros Environ file. eexists.
  destruct (@loader_overlay_leaves_win Environ (fun _ => inl file) "CFG_"
              "conf.yaml" _ eq_refl) as (overlay & H1 & H2).
  exists overlay. split; [reflexivity|]. split; [exact H1|exact H2].
Defined.



(* ===================================================================== *)
(** ** Further properties of the path deriver                              *)
(* ===================================================================== *)

(** X19. [getYAMLTag] never panics (a part that starts with yaml: always
    has a second colon-separated piece), and the name it returns holds no
    comma. *)
Theorem getYAMLTag_returns_name_without_comma (tag : string) :
  exists s, getYAMLTag tag = Returns s /\ mem "," s = false.
Proof.
  destruct (getYAMLTag_returns tag) as [s Hs]. exists s. split; [exact Hs|].
  unfold getYAMLTag in Hs. destruct (String.eqb tag "").
  - injection Hs as <-. reflexivity.
  - exact (getYAMLTag_parts_no_comma _ Hs).
Qed.

(** X20. For a tag written as a raw string with the yaml key alone,
    [`yaml:"name"`] or [`yaml:"name,options"`], where the name holds no
    comma and neither part holds a space, colon or quote, [getYAMLTag]
    returns the name. *)
Theorem getYAMLTag_reads_name (name opts : string) :
  mem "," name = false ->
  avoids (name ++ opts) tag_delimiters = true ->
  getYAMLTag (yaml_tag_text name) = Returns name
  /\ getYAMLTag (yaml_tag_text (name ++ "," ++ opts)) = Returns name.
Proof.
  intros Hcomma Hav. rewrite avoids_app in Hav.
  apply andb_true_iff in Hav. destruct Hav as [Hn Ho]. split.
  - rewrite (getYAMLTag_text name Hn).
    rewrite Split_no_mem by exact Hcomma. reflexivity.
  - rewrite getYAMLTag_text.
    + change (name ++ "," ++ opts) with (name ++ String "," opts).
      rewrite Split_app_sep by exact Hcomma. reflexivity.
    + rewrite !avoids_app, Hn, Ho. reflexivity.
Qed.

Lemma getYAMLTag_reads_name_witness :
  mem "," "host" = false
  /\ avoids ("host" ++ "omitempty") tag_delimiters = true
  /\ getYAMLTag (yaml_tag_text "host") = Returns "host"
  /\ getYAMLTag (yaml_tag_text ("host" ++ "," ++ "omitempty")) = Returns "host".
Proof.
  split; [reflexivity|]. split; [reflexivity|].
  exact (@getYAMLTag_reads_name "host" "omitempty" eq_refl eq_refl).
Defined.

(** X21. The walk only appends to the slice of variables: what a walk
    returns is what it was given followed by what the same walk returns
    from an empty slice, and it panics exactly when that one does. *)
Theorem walk_only_appends (l : ast.FieldList) (chain : list Field)
    (vars : list EnvVar) :
  processFieldList l chain vars =
  new <- processFieldList l chain [] ;; Returns (vars ++ new)%list.
Proof. exact (proj2 (proj2 process_appends) l chain vars). Qed.

(** X22. Every variable a field adds has a chain that starts with the
    chain of the enclosing fields. *)
Theorem processField_extends_parent_chain (f : ast.Field)
    (parentChain : list Field) (vars vars' : list EnvVar) (e : EnvVar) :
  processField f parentChain vars = Returns vars' ->
  In e vars' ->
  In e vars \/ exists suffix, Chain e = (parentChain ++ suffix)%list.
Proof.
  intros H Hin.
  exact (proj1 (proj2 process_extends_chain) f parentChain vars vars' H e Hin).
Qed.

Lemma processField_extends_parent_chain_witness :
  let parent := [mkField "database" "Database" ""] in
  let leaf := mkField "host" "string" "" in
  let f := ast.mkField ["Host"] Sample.string_ (Sample.yamlTag "host") None in
  processField f parent [] = Returns [mkEnvVar (parent ++ [leaf])%list]
  /\ (In (mkEnvVar (parent ++ [leaf])%list) []
      \/ exists suffix, (parent ++ [leaf])%list = (parent ++ suffix)%list).
Proof.
  intros parent leaf f. split; [reflexivity|].
  exact (@processField_extends_parent_chain f parent []
           [mkEnvVar (parent ++ [leaf])%list]
           (mkEnvVar (parent ++ [leaf])%list) eq_refl (or_introl eq_refl)).
Defined.

(** X23. A primitive type behind any number of pointer stars is a leaf:
    the walk adds exactly one variable, with the chain it was given. *)
Theorem pointer_to_primitive_is_leaf (n : nat) (name : string)
    (obj : option ast.Decl) (chain : list Field) (vars : list EnvVar) :
  isPrimitiveType name = true ->
  processStructFields (stars n (ast.Ident name obj)) chain vars
  = Returns (vars ++ [mkEnvVar chain])%list.
Proof. apply process_stars. Qed.

Lemma pointer_to_primitive_is_leaf_witness :
  isPrimitiveType "int" = true
  /\ processStructFields
       (ast.StarExpr (ast.StarExpr (ast.StarExpr (ast.Ident "int" None)))) [] []
     = Returns [mkEnvVar []].
Proof.
  split; [reflexivity|].
  exact (@pointer_to_primitive_is_leaf 3 "int" None [] [] eq_refl).
Defined.

(** X24. For a struct whose fields are all named, tagged and of a
    primitive type, the walk returns one variable per field, in
    declaration order, each with a chain of one field of the declared
    type. *)
Theorem flat_struct_one_variable_per_field (fs : list ast.Field) :
  forallb flat_field fs = true ->
  exists vars,
    deriveVars (ast.fields fs) = Returns vars
    /\ length vars = length fs
    /\ map (fun e => map Type_ (Chain e)) vars
       = map (fun f => [flat_type f]) fs.
Proof.
  intros Hflat.
  destruct (process_flat_fields fs Hflat [] []) as (new & Hnew & Htypes).
  exists new. split; [exact Hnew|]. split; [|exact Htypes].
  rewrite <- (length_map (fun e => map Type_ (Chain e)) new), Htypes.
  apply length_map.
Qed.

Lemma flat_struct_one_variable_per_field_witness :
  let fs := [ast.mkField ["Host"] Sample.string_ (Sample.yamlTag "host,omitempty") None;
             ast.mkField ["Port"] Sample.int_ (Sample.yamlTag "port") None] in
  forallb flat_field fs = true
  /\ exists vars,
       deriveVars (ast.fields fs) = Returns vars
       /\ length vars = 2%nat
       /\ map (fun e => map Type_ (Chain e)) vars = [["string"]; ["int"]].
Proof.
  intros fs. split; [reflexivity|].
  exact (@flat_struct_one_variable_per_field fs eq_refl).
Defined.

(** X25. A named, tagged field whose type is a slice, an array or a map
    adds no variable and raises no failure, whatever the tag says. *)
Theorem composite_field_is_omitted (Name0 : string) (more : list string)
    (TagValue : string) (Doc : option (list string))
    (parentChain : list Field) (vars : list EnvVar) :
  (forall Elt,
     processField (ast.mkField (Name0 :: more) (ast.ArrayType Elt)
                     (Some TagValue) Doc) parentChain vars = Returns vars)
  /\ (forall Key Value,
     processField (ast.mkField (Name0 :: more) (ast.MapType Key Value)
                     (Some TagValue) Doc) parentChain vars = Returns vars).
Proof.
  split; intros; cbn [processField];
    destruct (getYAMLTag_returns TagValue) as [s ->]; reflexivity.
Qed.

(** X26. The path of a variable holds no lower-case ASCII letter,
    whatever the prefix and the names in the chain. *)
Theorem Path_never_lower_case (prefix : string) (e : EnvVar) (c : ascii) :
  mem c (Path prefix e) && is_lower_byte c = false.
Proof.
  destruct (mem c (Path prefix e)) eqn:E; [|reflexivity].
  unfold Path, ToUpper in E.
  destruct (mem_map_bytes _ _ _ E) as [d ->].
  apply upper_byte_not_lower.
Qed.

(** X27. With a prefix, the path of a variable with a non-empty chain is
    the upper-cased prefix, an underscore, and the path the variable has
    without prefix. *)
Theorem Path_with_prefix (prefix : string) (e : EnvVar) :
  prefix <> "" -> Chain e <> [] ->
  Path prefix e = ToUpper prefix ++ "_" ++ Path "" e.
Proof.
  intros Hp Hc. unfold Path.
  apply String.eqb_neq in Hp. rewrite Hp. cbn [String.eqb app].
  destruct (map Name (Chain e)) as [|n ns] eqn:En.
  - destruct (Chain e); [congruence|discriminate].
  - unfold Join.
    change (String.concat "_" (prefix :: n :: ns))
      with (prefix ++ "_" ++ String.concat "_" (n :: ns)).
    unfold ToUpper. rewrite !map_bytes_app. reflexivity.
Qed.

Lemma Path_with_prefix_witness :
  let e := mkEnvVar [mkField "database" "Database" ""; mkField "host" "string" ""] in
  "myapp" <> "" /\ Chain e <> []
  /\ Path "myapp" e = "MYAPP" ++ "_" ++ "DATABASE_HOST".
Proof.
  intros e.
  assert (Hp : "myapp" <> "") by discriminate.
  assert (Hc : Chain e <> []) by discriminate.
  split; [exact Hp|]. split; [exact Hc|].
  exact (@Path_with_prefix "myapp" e Hp Hc).
Defined.

(** X28. Splitting the yaml path of a variable at the dots gives back the
    names of its chain, when the chain is not empty and no name holds a
    dot. *)
Theorem YAMLPath_split_gives_names (e : EnvVar) :
  Chain e <> [] ->
  (forall f, In f (Chain e) -> mem "." (Name f) = false) ->
  Split (YAMLPath e) "." = map Name (Chain e).
Proof.
  intros Hne Hnames. unfold YAMLPath. apply Split_Join.
  - destruct (Chain e); [congruence|discriminate].
  - intros part Hin. apply in_map_iff in Hin.
    destruct Hin as (f & <- & Hf). apply Hnames. exact Hf.
Qed.

Lemma YAMLPath_split_gives_names_witness :
  let e := mkEnvVar [mkField "database" "Database" ""; mkField "host" "string" ""] in
  Chain e <> []
  /\ Split (YAMLPath e) "." = ["database"; "host"].
Proof.
  intros e.
  assert (Hc : Chain e <> []) by discriminate.
  split; [exact Hc|].
  apply (@YAMLPath_split_gives_names e Hc).
  intros f [<-|[<-|[]]]; reflexivity.
Defined.

(** X29. [getEnvExampleValue] looks through exactly one pointer star: a
    pointer to a type that is not itself a pointer gets the example value
    of that type, and a pointer to a pointer gets the default "string",
    whatever it points to. *)
Theorem getEnvExampleValue_one_star (t : string) :
  HasPrefix t "*" = false ->
  getEnvExampleValue ("*" ++ t) = getEnvExampleValue t
  /\ getEnvExampleValue ("**" ++ t) = "string".
Proof.
  intros Ht. split.
  - unfold getEnvExampleValue.
    assert (H1 : TrimPrefix ("*" ++ t) "*" = t).
    { unfold TrimPrefix. rewrite (prefix_app "*" t : HasPrefix ("*" ++ t) "*" = true).
      reflexivity. }
    assert (H2 : TrimPrefix t "*" = t) by (unfold TrimPrefix; rewrite Ht; reflexivity).
    rewrite H1, H2. reflexivity.
  - unfold getEnvExampleValue.
    assert (H1 : TrimPrefix ("**" ++ t) "*" = "*" ++ t).
    { unfold TrimPrefix.
      rewrite (prefix_app "*" ("*" ++ t) : HasPrefix ("**" ++ t) "*" = true).
      reflexivity. }
    rewrite H1. reflexivity.
Qed.

Lemma getEnvExampleValue_one_star_witness :
  HasPrefix "int" "*" = false
  /\ getEnvExampleValue ("*" ++ "int") = "integer"
  /\ getEnvExampleValue ("**" ++ "int") = "string".
Proof.
  split; [reflexivity|].
  exact (@getEnvExampleValue_one_star "int" eq_refl).
Defined.

(** X30. A named field of a primitive type whose tag is
    [`yaml:"name,options"`] adds exactly one variable; its last field
    carries the tag's name when that name is not empty, else the
    lower-cased field name, together with the declared type and the
    field's comment, under the chain of the enclosing fields. *)
Theorem tagged_primitive_field_leaf (Name0 : string) (more : list string)
    (tname : string) (obj : option ast.Decl) (name opts : string)
    (Doc : option (list string)) (parentChain : list Field)
    (vars : list EnvVar) :
  isPrimitiveType tname = true ->
  mem "," name = false ->
  avoids (name ++ opts) tag_delimiters = true ->
  let leaf := mkField (if String.eqb name "" then ToLower Name0 else name)
                tname (fieldComment Doc) in
  processField
    (ast.mkField (Name0 :: more) (ast.Ident tname obj)
       (Some (yaml_tag_text (name ++ "," ++ opts))) Doc)
    parentChain vars
  = Returns (vars ++ [mkEnvVar (parentChain ++ [leaf])])%list
  /\ LastField (mkEnvVar (parentChain ++ [leaf])%list) = leaf.
Proof.
  intros Hprim Hcomma Hav leaf. split.
  - cbn [processField].
    rewrite getYAMLTag_text.
    2:{ rewrite avoids_app in Hav. apply andb_true_iff in Hav.
        destruct Hav as [Hn Ho]. rewrite !avoids_app, Hn, Ho. reflexivity. }
    change (name ++ "," ++ opts) with (name ++ String "," opts).
    rewrite Split_app_sep by exact Hcomma.
    cbn [hd bind getTypeString processStructFields]. rewrite Hprim.
    reflexivity.
  - unfold LastField. cbn [Chain]. apply last_last.
Qed.

Lemma tagged_primitive_field_leaf_witness :
  isPrimitiveType "string" = true
  /\ mem "," "host" = false
  /\ avoids ("host" ++ "omitempty") tag_delimiters = true
  /\ processField
       (ast.mkField ["Host"] (ast.Ident "string" None)
          (Some (yaml_tag_text ("host" ++ "," ++ "omitempty")))
          (Some ["// Host is the database server hostname"]))
       [] []
     = Returns [mkEnvVar [mkField "host" "string"
                            "Host is the database server hostname"]].
Proof.
  split; [reflexivity|]. split; [reflexivity|]. split; [reflexivity|].
  exact (proj1 (@tagged_primitive_field_leaf "Host" [] "string" None "host"
                  "omitempty" (Some ["// Host is the database server hostname"])
                  [] [] eq_refl eq_refl eq_refl)).
Defined.
